(** * hnswlib: the sharded label lookup and the light profiler

    A shallow embedding of [hnswlib/shard_label.h] (class
    [ShardedLabelLookup]) and of the scoped [Timer] of
    [hnswlib/hnsw_profiler.h], with the properties of the lookup proved
    over it.

    The lookup is a vector of [NUM_SHARDS] shards, each an
    [unordered_map] from labels to internal ids and a [shared_mutex].
    Member functions are computations on the object: they take the
    object, may fail (an access outside the vector, a lock that can not
    be taken), and return a value, the object afterwards and the trace
    of the lock and map accesses they made. *)

From stdpp Require Import base option list gmap strings numbers.

Open Scope Z_scope.

(** ** Machine integers *)

(** [unsigned int] (32 bits), the representation of [tableint]. *)
Abbreviation tableint := Z (only parsing).

Definition UINT_MODULUS : Z := 2 ^ 32.
Definition UINT64_MODULUS : Z := 2 ^ 64.

(** Conversion of an integer value to [unsigned int]. *)
Definition to_tableint (z : Z) : tableint := z `mod` UINT_MODULUS.

(** Conversion of an integer value to [uint64_t]. *)
Definition to_uint64 (z : Z) : Z := z `mod` UINT64_MODULUS.

(** The values an object of type [tableint] can hold. *)
Definition is_tableint (z : Z) : Prop := 0 ≤ z < UINT_MODULUS.

(** What [find] returns for a label it does not find: the [-1] of its
    return statement, as a [tableint]. *)
Definition NOT_FOUND : Z := to_tableint (-1).

(** [static constexpr size_t NUM_SHARDS = 128;] *)
Definition NUM_SHARDS : N := 128.

(** ** Labels and their hash

    [labeltype] is declared in [hnswlib.h]; the lookup uses it as the
    key of an [unordered_map] and through [std::hash<labeltype>] only.
    It is kept abstract: any type with decidable equality that can key a
    map, together with its [size_t]-valued hash. *)
Class Hash (K : Type) := std_hash : K → N.

(** ** Shards *)

(** [std::shared_mutex]: held by a number of readers (none when it is
    free) or by one writer. *)
Inductive shared_mutex :=
  | Readers (n : nat)
  | Writer.

Record Shard (labeltype : Type) `{Countable labeltype} := mkShard {
  map : gmap labeltype Z;
  mutex : shared_mutex
}.
Arguments mkShard {_ _ _} _ _.
Arguments map {_ _ _} _.
Arguments mutex {_ _ _} _.

Record ShardedLabelLookup (labeltype : Type) `{Countable labeltype} :=
  mkLookup { shards_ : list (Shard labeltype) }.
Arguments mkLookup {_ _ _} _.
Arguments shards_ {_ _ _} _.

(** What a member function does to the shards, in order. *)
Inductive event :=
  | Lock (idx : N)          (* exclusive lock of shards_[idx].mutex taken *)
  | LockShared (idx : N)    (* shared lock of shards_[idx].mutex taken *)
  | Unlock (idx : N)        (* exclusive lock released *)
  | UnlockShared (idx : N)  (* shared lock released *)
  | MapAccess (idx : N).    (* shards_[idx].map read or written *)

(** ** Computations on an object

    A computation on an object of type [S] fails ([None]: undefined
    behaviour, or a thread that waits for ever) or returns a value, the
    object afterwards and the trace of what it did to the shards. *)

Definition M (S A : Type) : Type := S → option (A * S * list event).

Definition ret {S A} (a : A) : M S A := λ this, Some (a, this, []).

Definition bind {S A B} (m : M S A) (f : A → M S B) : M S B :=
  λ this,
    match m this with
    | None => None
    | Some (a, this', tr) =>
        match f a this' with
        | None => None
        | Some (b, this'', tr') => Some (b, this'', tr ++ tr')
        end
    end.

Definition stuck {S A} : M S A := λ _, None.

(** [m] returns [a] on [this]. *)
Definition returns {S A} (m : M S A) (this : S) (a : A) : Prop :=
  ∃ this' tr, m this = Some (a, this', tr).

Notation "'do' x <- m ; f" := (bind m (λ x, f))
  (at level 10, x name, m at level 100, f at level 200,
   format "'[v' 'do'  x  <-  m ; '/' f ']'").
Notation "m ;; f" := (bind m (λ _, f))
  (at level 100, f at level 200, right associativity).

Section Lookup.
Context {labeltype : Type} `{Countable labeltype} `{!Hash labeltype}.

Abbreviation Lookup := (ShardedLabelLookup labeltype).
Abbreviation Comp := (M (ShardedLabelLookup labeltype)).

(** [shards_[idx]]: undefined outside the vector. *)
Definition shard_at (idx : N) : Comp (Shard labeltype) :=
  λ this,
    match shards_ this !! N.to_nat idx with
    | Some sh => Some (sh, this, [])
    | None => None
    end.

Definition store_shard (idx : N) (sh : Shard labeltype) (e : event)
  : Comp unit :=
  λ this, Some (tt, mkLookup (<[N.to_nat idx := sh]> (shards_ this)), [e]).

(** [std::unique_lock<std::shared_mutex> lock(shards_[idx].mutex);]
    waits while the mutex is held by anyone. *)
Definition unique_lock (idx : N) : Comp unit :=
  do sh <- shard_at idx;
  match mutex sh with
  | Readers O => store_shard idx (mkShard (map sh) Writer) (Lock idx)
  | _ => stuck
  end.

(** [std::shared_lock<std::shared_mutex> lock(shards_[idx].mutex);]
    waits while a writer holds the mutex. *)
Definition shared_lock (idx : N) : Comp unit :=
  do sh <- shard_at idx;
  match mutex sh with
  | Readers n =>
      store_shard idx (mkShard (map sh) (Readers (S n))) (LockShared idx)
  | Writer => stuck
  end.

(** The destructor of the [unique_lock], at the end of the scope. *)
Definition unique_unlock (idx : N) : Comp unit :=
  do sh <- shard_at idx;
  match mutex sh with
  | Writer => store_shard idx (mkShard (map sh) (Readers 0)) (Unlock idx)
  | _ => stuck
  end.

(** The destructor of the [shared_lock], at the end of the scope. *)
Definition shared_unlock (idx : N) : Comp unit :=
  do sh <- shard_at idx;
  match mutex sh with
  | Readers (S n) =>
      store_shard idx (mkShard (map sh) (Readers n)) (UnlockShared idx)
  | _ => stuck
  end.

(** [shards_[idx].map[label] = id;] *)
Definition map_assign (idx : N) (label : labeltype) (id : tableint)
  : Comp unit :=
  do sh <- shard_at idx;
  store_shard idx (mkShard (<[label := id]> (map sh)) (mutex sh))
    (MapAccess idx).

(** An iterator of the map: the entry it points to, [None] for [end()]. *)
Definition iterator : Type := option (labeltype * Z).

(** A read of [shards_[idx].map] that leaves it as it is. *)
Definition map_read {A} (idx : N) (f : gmap labeltype Z → A) : Comp A :=
  do sh <- shard_at idx;
  λ this, Some (f (map sh), this, [MapAccess idx]).

(** [shards_[idx].map.find(label)] *)
Definition map_find (idx : N) (label : labeltype) : Comp iterator :=
  map_read idx (λ m, (λ second, (label, second)) <$> m !! label).

(** [shards_[idx].map.end()] *)
Definition map_end (idx : N) : Comp iterator :=
  map_read idx (λ _, None).

(** [shards_[idx].map.erase(label)]: the number of entries removed. *)
Definition map_erase (idx : N) (label : labeltype) : Comp N :=
  do sh <- shard_at idx;
  match map sh !! label with
  | Some _ =>
      store_shard idx (mkShard (delete label (map sh)) (mutex sh))
        (MapAccess idx);;
      ret 1%N
  | None => map_read idx (λ _, 0%N)
  end.

(** [ShardedLabelLookup() : shards_(NUM_SHARDS) {}] *)
Definition ShardedLabelLookup_new : Lookup :=
  mkLookup (replicate (N.to_nat NUM_SHARDS) (mkShard ∅ (Readers 0))).

(** [std::hash<labeltype>{}(label) % NUM_SHARDS], the value that
    [get_shard_index] returns. *)
Definition shard_index (label : labeltype) : N :=
  (std_hash label `mod` NUM_SHARDS)%N.

(** [size_t get_shard_index(labeltype label) const] *)
Definition get_shard_index (label : labeltype) : Comp N :=
  ret (shard_index label).

(** [void insert(labeltype label, tableint id)] *)
Definition insert (label : labeltype) (id : tableint) : Comp unit :=
  do idx <- get_shard_index label;
  unique_lock idx;;
  map_assign idx label id;;
  unique_unlock idx.

(** [tableint find(labeltype label) const]; the [-1] of the source is
    converted to [tableint], the type of the other branch. *)
Definition find (label : labeltype) : Comp Z :=
  do idx <- get_shard_index label;
  shared_lock idx;;
  do it <- map_find idx label;
  do last <- map_end idx;
  do r <- (if decide (it ≠ last)
           then match it with
                | Some (_, second) => ret second
                | None => stuck
                end
           else ret NOT_FOUND);
  shared_unlock idx;;
  ret r.

(** [bool erase(labeltype label)] *)
Definition erase (label : labeltype) : Comp bool :=
  do idx <- get_shard_index label;
  unique_lock idx;;
  do n <- map_erase idx label;
  unique_unlock idx;;
  ret (bool_decide (0 < n)%N).
End Lookup.

(** ** Sequences of calls *)

Inductive call (labeltype : Type) :=
  | Insert (label : labeltype) (id : Z)
  | Find (label : labeltype)
  | Erase (label : labeltype).
Arguments Insert {_} _ _.
Arguments Find {_} _.
Arguments Erase {_} _.

Inductive result :=
  | Done
  | Found (id : Z)
  | Erased (b : bool).

Section Calls.
Context {labeltype : Type} `{Countable labeltype} `{!Hash labeltype}.

Definition call_label (c : call labeltype) : labeltype :=
  match c with
  | Insert label _ | Find label | Erase label => label
  end.

Definition perform (c : call labeltype)
  : M (ShardedLabelLookup labeltype) result :=
  match c with
  | Insert label id => insert label id;; ret Done
  | Find label => do id <- find label; ret (Found id)
  | Erase label => do b <- erase label; ret (Erased b)
  end.

Fixpoint run (cs : list (call labeltype))
  : M (ShardedLabelLookup labeltype) (list result) :=
  match cs with
  | [] => ret []
  | c :: cs => do r <- perform c; do rs <- run cs; ret (r :: rs)
  end.

(** The objects a program can hold: a fresh one after any calls. *)
Definition reachable (this : ShardedLabelLookup labeltype) : Prop :=
  ∃ cs rs tr, run cs ShardedLabelLookup_new = Some (rs, this, tr).

(** A call that writes the entry of [label]. *)
Definition writes (label : labeltype) (c : call labeltype) : Prop :=
  match c with
  | Insert l _ | Erase l => l = label
  | Find _ => False
  end.

Definition inserts (label : labeltype) (c : call labeltype) : Prop :=
  match c with
  | Insert l _ => l = label
  | _ => False
  end.

(** The labels inserted and not erased since, by the calls alone. *)
Definition live_step (live : gset labeltype) (c : call labeltype)
  : gset labeltype :=
  match c with
  | Insert label _ => {[label]} ∪ live
  | Find _ => live
  | Erase label => live ∖ {[label]}
  end.

Definition live_labels (cs : list (call labeltype)) : gset labeltype :=
  foldl live_step ∅ cs.

(** The labels met when every shard's mapping is scanned in turn. *)
Definition shard_labels (sh : Shard labeltype) : list labeltype :=
  (map_to_list (map sh)).*1.

Definition all_labels (this : ShardedLabelLookup labeltype)
  : list labeltype :=
  shards_ this ≫= shard_labels.

(** The id stored for [label] in the shard [label] is routed to. *)
Definition entry (this : ShardedLabelLookup labeltype) (label : labeltype)
  : option Z :=
  sh ← shards_ this !! N.to_nat (shard_index label);
  map sh !! label.

(** Between calls: the vector has its [NUM_SHARDS] shards, no lock is
    held, and every label sits in the shard it is routed to. *)
Definition unlocked (this : ShardedLabelLookup labeltype) : Prop :=
  ∀ i sh, shards_ this !! i = Some sh → mutex sh = Readers 0.

Definition routed (this : ShardedLabelLookup labeltype) : Prop :=
  ∀ i sh label,
    shards_ this !! i = Some sh → is_Some (map sh !! label) →
    i = N.to_nat (shard_index label).

Definition wf (this : ShardedLabelLookup labeltype) : Prop :=
  length (shards_ this) = N.to_nat NUM_SHARDS ∧ unlocked this ∧ routed this.

(** [this'] differs from [this] at most in the entry of [label], in the
    mapping of the shard that [label] is routed to, whose size then
    changes by at most one. *)
Definition differ_at_most_at (label : labeltype)
    (this this' : ShardedLabelLookup labeltype) : Prop :=
  length (shards_ this') = length (shards_ this)
  ∧ (∀ i, i ≠ N.to_nat (shard_index label) →
          shards_ this' !! i = shards_ this !! i)
  ∧ ∃ sh sh',
      shards_ this !! N.to_nat (shard_index label) = Some sh
      ∧ shards_ this' !! N.to_nat (shard_index label) = Some sh'
      ∧ mutex sh' = mutex sh
      ∧ (∀ l, l ≠ label → map sh' !! l = map sh !! l)
      ∧ (size (map sh) ≤ S (size (map sh')))%nat
      ∧ (size (map sh') ≤ S (size (map sh)))%nat.

(** What a call returns, by the entries before it. *)
Definition answer (this : ShardedLabelLookup labeltype)
    (c : call labeltype) : result :=
  match c with
  | Insert _ _ => Done
  | Find label => Found (default NOT_FOUND (entry this label))
  | Erase label => Erased (bool_decide (is_Some (entry this label)))
  end.

(** The entry of [l] after a call, by the entries before it. *)
Definition entry_after (this : ShardedLabelLookup labeltype)
    (c : call labeltype) (l : labeltype) : option Z :=
  match c with
  | Insert label id => if decide (l = label) then Some id else entry this l
  | Find _ => entry this l
  | Erase label => if decide (l = label) then None else entry this l
  end.
End Calls.

(** ** Reading a trace *)

Definition event_shard (e : event) : N :=
  match e with
  | Lock i | LockShared i | Unlock i | UnlockShared i | MapAccess i => i
  end.

Definition locks_taken (tr : list event) : list N :=
  omap (λ e, match e with
             | Lock i | LockShared i => Some i
             | _ => None
             end) tr.

Fixpoint release (i : N) (held : list N) : list N :=
  match held with
  | [] => []
  | j :: held => if decide (i = j) then held else j :: release i held
  end.

(** The shard locks held once [e] has happened. *)
Definition held_after (held : list N) (e : event) : list N :=
  match e with
  | Lock i | LockShared i => i :: held
  | Unlock i | UnlockShared i => release i held
  | MapAccess _ => held
  end.

(** The largest number of shard locks held at one time along a trace. *)
Fixpoint max_held (held : list N) (tr : list event) : nat :=
  match tr with
  | [] => length held
  | e :: tr => length held `max` max_held (held_after held e) tr
  end.

Definition held_at_end (tr : list event) : list N := foldl held_after [] tr.

(** ** The profiler's scoped timer *)

(** [HNSWLightProfiler::Event] *)
Record Event := mkEvent {
  tag : string;
  tid : N;
  duration_us : Z
}.

(** The static members of [HNSWLightProfiler]; [thread_local_events_]
    is one vector per thread, and [events_mutex_] is held or not. *)
Record HNSWLightProfiler := mkProfiler {
  events_mutex_ : bool;
  events_ : list Event;
  thread_start_times_ : gmap N Z;
  thread_end_times_ : gmap N Z;
  thread_local_events_ : gmap N (list Event)
}.

(** [HNSWLightProfiler::Timer] *)
Record Timer := mkTimer {
  tag_ : string;
  start_ : Z
}.

(** A thread of a process that owns a lookup: the lookup, the profiler,
    the readings the clock will give, in microseconds since the epoch,
    how many of them were taken, and the thread's id. *)
Record Process (labeltype : Type) `{Countable labeltype} := mkProcess {
  lookup : ShardedLabelLookup labeltype;
  profiler : HNSWLightProfiler;
  clock : nat → Z;
  ticks : nat;
  this_thread : N
}.
Arguments mkProcess {_ _ _} _ _ _ _ _.
Arguments lookup {_ _ _} _.
Arguments profiler {_ _ _} _.
Arguments clock {_ _ _} _.
Arguments ticks {_ _ _} _.
Arguments this_thread {_ _ _} _.

Section Profiler.
Context {labeltype : Type} `{Countable labeltype} `{!Hash labeltype}.

Abbreviation Proc := (M (Process labeltype)).

(** [Timer::now()] *)
Definition now : Proc Z :=
  λ w, Some (to_uint64 (clock w (ticks w)),
             mkProcess (lookup w) (profiler w) (clock w) (S (ticks w))
               (this_thread w),
             []).

(** [std::this_thread::get_id()] *)
Definition get_id : Proc N := λ w, Some (this_thread w, w, []).

Definition get_profiler : Proc HNSWLightProfiler :=
  λ w, Some (profiler w, w, []).

Definition set_profiler (p : HNSWLightProfiler) : Proc unit :=
  λ w,
    Some (tt, mkProcess (lookup w) p (clock w) (ticks w) (this_thread w), []).

(** [thread_local_events_.emplace_back(tag, tid, duration);] *)
Definition emplace_back (e : Event) : Proc unit :=
  do t <- get_id;
  do p <- get_profiler;
  set_profiler
    (mkProfiler (events_mutex_ p) (events_ p) (thread_start_times_ p)
       (thread_end_times_ p)
       (<[t := default [] (thread_local_events_ p !! t) ++ [e]]>
          (thread_local_events_ p))).

(** [std::lock_guard<std::mutex> lock(events_mutex_);] waits while the
    mutex is held. *)
Definition lock_guard : Proc unit :=
  do p <- get_profiler;
  if events_mutex_ p then stuck
  else set_profiler
         (mkProfiler true (events_ p) (thread_start_times_ p)
            (thread_end_times_ p) (thread_local_events_ p)).

(** The destructor of the [lock_guard]. *)
Definition lock_guard_release : Proc unit :=
  do p <- get_profiler;
  if events_mutex_ p
  then set_profiler
         (mkProfiler false (events_ p) (thread_start_times_ p)
            (thread_end_times_ p) (thread_local_events_ p))
  else stuck.

(** [Timer(const std::string& tag)] *)
Definition Timer_ctor (tag : string) : Proc Timer :=
  do start <- now;
  ret (mkTimer tag start).

(** [~Timer()] *)
Definition Timer_dtor (t : Timer) : Proc unit :=
  do end_ <- now;
  let duration := to_uint64 (end_ - start_ t) in
  do tid <- get_id;
  emplace_back (mkEvent (tag_ t) tid duration);;
  lock_guard;;
  do p <- get_profiler;
  (match thread_start_times_ p !! tid with
   | None =>
       set_profiler
         (mkProfiler (events_mutex_ p) (events_ p)
            (<[tid := start_ t]> (thread_start_times_ p))
            (thread_end_times_ p) (thread_local_events_ p))
   | Some _ => ret tt
   end);;
  do p <- get_profiler;
  set_profiler
    (mkProfiler (events_mutex_ p) (events_ p) (thread_start_times_ p)
       (<[tid := end_]> (thread_end_times_ p)) (thread_local_events_ p));;
  lock_guard_release.

(** A member function of the lookup, called by the thread. *)
Definition on_lookup {A} (m : M (ShardedLabelLookup labeltype) A) : Proc A :=
  λ w,
    match m (lookup w) with
    | None => None
    | Some (a, this', tr) =>
        Some (a,
              mkProcess this' (profiler w) (clock w) (ticks w) (this_thread w),
              tr)
    end.

(** [{ HNSWLightProfiler::Timer timer(tag); body }] *)
Definition timed {A} (tag : string) (body : Proc A) : Proc A :=
  do t <- Timer_ctor tag;
  do a <- body;
  Timer_dtor t;;
  ret a.

(** A call of the lookup, in the scope of a timer when a tag is given. *)
Definition perform_in (c : option string * call labeltype) : Proc result :=
  match c.1 with
  | Some tag => timed tag (on_lookup (perform c.2))
  | None => on_lookup (perform c.2)
  end.

Fixpoint run_in (cs : list (option string * call labeltype))
  : Proc (list result) :=
  match cs with
  | [] => ret []
  | c :: cs => do r <- perform_in c; do rs <- run_in cs; ret (r :: rs)
  end.

(** What a run shows of the lookup: the results, the lookup afterwards
    and what was done to the shards. *)
Definition observe {A}
    (o : option (A * Process labeltype * list event))
  : option (A * ShardedLabelLookup labeltype * list event) :=
  match o with
  | Some (a, w, tr) => Some (a, lookup w, tr)
  | None => None
  end.
End Profiler.

(** ** Instances

    [hnswlib.h] makes [labeltype] a [size_t], whose [std::hash] is the
    identity in the usual standard libraries. *)
#[export] Instance hash_size_t : Hash N := λ label, label.

(** A hash of strings, for the examples on string labels: a
    multiplicative hash over the characters, in [size_t] arithmetic. *)
Fixpoint string_hash (h : N) (label : string) : N :=
  match label with
  | EmptyString => h
  | String a label =>
      string_hash ((h * 31 + Ascii.N_of_ascii a) `mod` 2 ^ 64)%N label
  end.

#[export] Instance hash_string : Hash string := string_hash 7.

(** ** Objects and calls for the examples *)

(** The results of a run. *)
Definition results {S A} (o : option (A * S * list event)) : option A :=
  (λ x, x.1.1) <$> o.

(** The scenario on the label ["user_42"]. *)
Definition scenario : list (call string) :=
  [Insert "user_42" 7; Find "user_42"; Insert "user_42" 9; Find "user_42";
   Erase "user_42"; Find "user_42"; Erase "user_42"].

(** A structure after [insert(1, 10)] and [insert(129, 20)], two labels
    of shard 1. *)
Definition two_entries : ShardedLabelLookup N :=
  mkLookup
    (<[1%nat := mkShard (<[129%N := 20]> (<[1%N := 10]> ∅)) (Readers 0)]>
       (replicate 128 (mkShard ∅ (Readers 0)))).

Definition others_of_1 : list (call N) :=
  [Insert 2%N 5; Find 1%N; Erase 129%N; Find 129%N].

Definition no_insert_of_1 : list (call N) :=
  [Find 1%N; Erase 1%N; Insert 129%N 21; Erase 2%N].

(** A thread with a lookup, an empty profiler and a clock. *)
Definition sample_process : Process N :=
  mkProcess two_entries (mkProfiler false [] ∅ ∅ ∅)
    (λ n, 1000 + 7 * Z.of_nat n) 0 1%N.

Definition sample_calls : list (option string * call N) :=
  [(Some "insert", Insert 5%N 7); (None, Find 5%N); (Some "find", Find 1%N);
   (Some "erase", Erase 129%N); (None, Erase 129%N)].

(** ** The lookup as a whole *)

Section Whole.
Context {labeltype : Type} `{Countable labeltype} `{!Hash labeltype}.

(** The number of entries over all the shards. *)
Definition entry_count (this : ShardedLabelLookup labeltype) : nat :=
  sum_list_with (λ sh, size (map sh)) (shards_ this).

(** The calls that only read. *)
Definition is_find (c : call labeltype) : Prop :=
  match c with
  | Find _ => True
  | _ => False
  end.
End Whole.

(** ** The rest of the profiler *)

(** [UINT64_MAX] *)
Definition UINT64_MAX : Z := 2 ^ 64 - 1.

(** The values an object of type [uint64_t] can hold. *)
Definition is_uint64 (z : Z) : Prop := 0 ≤ z ≤ UINT64_MAX.

(** [total], [min_time] and [max_time] of the loop over the durations of
    one tag and one thread, in [export_to_csv] and in [report]. *)
Record Tally := mkTally {
  total : Z;
  min_time : Z;
  max_time : Z
}.

(** [total += t; if (t > max_time) max_time = t;
     if (t < min_time) min_time = t;] *)
Definition tally_step (s : Tally) (t : Z) : Tally :=
  mkTally (to_uint64 (total s + t))
    (if decide (t < min_time s) then t else min_time s)
    (if decide (t > max_time s) then t else max_time s).

(** [for (auto t : times) { ... }], from [total = 0],
    [min_time = UINT64_MAX] and [max_time = 0]. *)
Definition tally_times (times : list Z) : Tally :=
  foldl tally_step (mkTally 0 UINT64_MAX 0) times.

(** [thread_tag_times[e.tag][e.tid].push_back(e.duration_us);] *)
Definition push_time (thread_tag_times : gmap string (gmap N (list Z)))
    (e : Event) : gmap string (gmap N (list Z)) :=
  let thread_map := default ∅ (thread_tag_times !! tag e) in
  <[tag e := <[tid e := default [] (thread_map !! tid e) ++ [duration_us e]]>
               thread_map]> thread_tag_times.

(** [for (const auto& e : events_) { ... }]: the durations by tag and
    by thread. *)
Definition thread_tag_times (events : list Event)
  : gmap string (gmap N (list Z)) :=
  foldl push_time ∅ events.

(** The durations recorded for a tag and a thread, if any. *)
Definition times_of (m : gmap string (gmap N (list Z))) (tg : string)
    (t : N) : option (list Z) :=
  thread_map ← m !! tg; thread_map !! t.

(** [thread_totals[tid] += total;] *)
Definition add_total (t : N) (times : list Z) (thread_totals : gmap N Z)
  : gmap N Z :=
  <[t := to_uint64 (default 0 (thread_totals !! t)
                     + total (tally_times times))]> thread_totals.

(** [thread_totals] of [report], after its two nested loops over the
    tags and the threads. *)
Definition thread_totals (m : gmap string (gmap N (list Z))) : gmap N Z :=
  map_fold (λ _ thread_map acc, map_fold add_total acc thread_map) ∅ m.

(** The figures of one row: the number of calls and the tally. *)
Definition row_of (times : list Z) : nat * Tally :=
  (length times, tally_times times).

(** The figures of all the rows, by tag and by thread. *)
Definition rows_of (m : gmap string (gmap N (list Z)))
  : gmap string (gmap N (nat * Tally)) :=
  (λ thread_map : gmap N (list Z), row_of <$> thread_map) <$> m.

Section Statics.
Context {labeltype : Type} `{Countable labeltype}.

(** The events of the calling thread that are not flushed yet. *)
Definition local_events (w : Process labeltype) : list Event :=
  default [] (thread_local_events_ (profiler w) !! this_thread w).

(** [static void flush_thread_local()] *)
Definition flush_thread_local : M (Process labeltype) unit :=
  do t <- get_id;
  do p <- get_profiler;
  match default [] (thread_local_events_ p !! t) with
  | [] => ret tt
  | _ :: _ =>
      lock_guard;;
      do p <- get_profiler;
      set_profiler
        (mkProfiler (events_mutex_ p)
           (events_ p ++ default [] (thread_local_events_ p !! t))
           (thread_start_times_ p) (thread_end_times_ p)
           (thread_local_events_ p));;
      do p <- get_profiler;
      set_profiler
        (mkProfiler (events_mutex_ p) (events_ p) (thread_start_times_ p)
           (thread_end_times_ p) (<[t := []]> (thread_local_events_ p)));;
      lock_guard_release
  end.

(** [static void clear()] *)
Definition clear : M (Process labeltype) unit :=
  lock_guard;;
  do t <- get_id;
  do p <- get_profiler;
  set_profiler
    (mkProfiler (events_mutex_ p) [] (thread_start_times_ p)
       (thread_end_times_ p) (thread_local_events_ p));;
  do p <- get_profiler;
  set_profiler
    (mkProfiler (events_mutex_ p) (events_ p) (thread_start_times_ p)
       (thread_end_times_ p) (<[t := []]> (thread_local_events_ p)));;
  do p <- get_profiler;
  set_profiler
    (mkProfiler (events_mutex_ p) (events_ p) ∅
       (thread_end_times_ p) (thread_local_events_ p));;
  do p <- get_profiler;
  set_profiler
    (mkProfiler (events_mutex_ p) (events_ p) (thread_start_times_ p)
       ∅ (thread_local_events_ p));;
  lock_guard_release.

(** [static void export_to_csv(const std::string& filename)], with
    whether the file opens; it returns the figures of the rows it
    writes, by tag and by thread, and nothing when the file does not
    open. The text of the file and its floating-point columns are left
    out. *)
Definition export_to_csv (is_open : bool)
  : M (Process labeltype) (option (gmap string (gmap N (nat * Tally)))) :=
  flush_thread_local;;
  lock_guard;;
  do rows <- (if is_open
              then do p <- get_profiler;
                   ret (Some (rows_of (thread_tag_times (events_ p))))
              else ret None);
  lock_guard_release;;
  ret rows.

(** [static void report()]: it returns the figures of the lines it
    prints, by tag and by thread, and the number of threads of its last
    line. The text printed and its floating-point figures are left
    out. *)
Definition report
  : M (Process labeltype) (gmap string (gmap N (nat * Tally)) * nat) :=
  flush_thread_local;;
  lock_guard;;
  do p <- get_profiler;
  let times := thread_tag_times (events_ p) in
  lock_guard_release;;
  ret (rows_of times, size (thread_totals times)).
End Statics.

(** The durations of the events of a tag and a thread, in order. *)
Definition durations (events : list Event) (tg : string) (t : N) : list Z :=
  duration_us <$> filter (λ e, tag e = tg ∧ tid e = t) events.

(** The sum of durations, as an integer. *)
Definition sum_times (times : list Z) : Z := foldr Z.add 0 times.

(** The tags of the calls that run in the scope of a timer, in order. *)
Definition timer_tags {labeltype} (tcs : list (option string * call labeltype))
  : list string :=
  omap fst tcs.

(** ** More objects for the examples *)

(** [two_entries] with the lock of shard 1 held by a writer, and by a
    reader. *)
Definition writer_on_shard_1 : ShardedLabelLookup N :=
  mkLookup
    (<[1%nat := mkShard (<[129%N := 20]> (<[1%N := 10]> ∅)) Writer]>
       (replicate 128 (mkShard ∅ (Readers 0)))).

Definition reader_on_shard_1 : ShardedLabelLookup N :=
  mkLookup
    (<[1%nat := mkShard (<[129%N := 20]> (<[1%N := 10]> ∅)) (Readers 1)]>
       (replicate 128 (mkShard ∅ (Readers 0)))).

(** Thread 1, with two unflushed events, beside a flushed event and an
    unflushed event of thread 2. *)
Definition busy_profiler (held : bool) : HNSWLightProfiler :=
  mkProfiler held [mkEvent "find" 2 30]
    (<[2%N := 5]> ∅) (<[2%N := 90]> ∅)
    (<[1%N := [mkEvent "insert" 1 12; mkEvent "find" 1 4]]>
       (<[2%N := [mkEvent "erase" 2 8]]> ∅)).

Definition busy_process : Process N :=
  mkProcess two_entries (busy_profiler false)
    (λ n, 1000 + 7 * Z.of_nat n) 0 1%N.

(** The same while another thread holds the profiler's mutex. *)
Definition waiting_process : Process N :=
  mkProcess two_entries (busy_profiler true)
    (λ n, 1000 + 7 * Z.of_nat n) 0 1%N.

(** Three lookups, two of them timed, and [sample_process] after them. *)
Definition sample_finds : list (option string * call N) :=
  [(Some "find", Find 1%N); (None, Find 5%N); (Some "miss", Find 5%N)].

Definition sample_process_after : Process N :=
  mkProcess two_entries
    (mkProfiler false [] (<[1%N := 1000]> ∅) (<[1%N := 1021]> ∅)
       (<[1%N := [mkEvent "find" 1 7; mkEvent "miss" 1 7]]> ∅))
    (λ n, 1000 + 7 * Z.of_nat n) 4 1%N.

(** * Properties *)

(** ** The member functions on an object between calls *)

Section Steps.
Context {labeltype : Type} `{Countable labeltype} `{!Hash labeltype}.
Implicit Types (this : ShardedLabelLookup labeltype) (label : labeltype).
Implicit Types (sh : Shard labeltype) (cs : list (call labeltype)).

Lemma shard_index_lt label : (shard_index label < NUM_SHARDS)%N.
Proof. unfold shard_index. apply N.mod_lt. done. Qed.

Lemma shard_in_range this label :
  length (shards_ this) = N.to_nat NUM_SHARDS →
  (N.to_nat (shard_index label) < length (shards_ this))%nat.
Proof. intros ->. pose proof (shard_index_lt label). lia. Qed.

Lemma wf_shard this label :
  wf this →
  ∃ sh, shards_ this !! N.to_nat (shard_index label) = Some sh
        ∧ mutex sh = Readers 0.
Proof.
  intros (Hlen & Hfree & _).
  destruct (lookup_lt_is_Some_2 (shards_ this) (N.to_nat (shard_index label)))
    as [sh Hsh]; [by apply shard_in_range|].
  exists sh. split; [done|]. by eapply Hfree.
Qed.

(** Unfolds a member function down to the accesses to [shards_]. *)
Ltac step_into :=
  unfold insert, find, erase, get_shard_index, unique_lock, shared_lock,
    unique_unlock, shared_unlock, map_assign, map_find, map_end, map_erase,
    map_read, store_shard, shard_at, bind, ret, stuck; simpl.

Ltac step_shard Hsh :=
  repeat first
    [ rewrite Hsh; simpl
    | rewrite list_lookup_insert_eq by (by eapply lookup_lt_Some); simpl
    | rewrite list_insert_insert_eq ].

Lemma insert_eq this label id sh :
  shards_ this !! N.to_nat (shard_index label) = Some sh →
  mutex sh = Readers 0 →
  insert label id this =
    Some (tt,
          mkLookup (<[N.to_nat (shard_index label) :=
                       mkShard (<[label := id]> (map sh)) (Readers 0)]>
                      (shards_ this)),
          [Lock (shard_index label); MapAccess (shard_index label);
           Unlock (shard_index label)]).
Proof.
  intros Hsh Hfree. step_into. rewrite Hsh; simpl. rewrite Hfree; simpl.
  by step_shard Hsh.
Qed.

Lemma find_eq this label sh :
  shards_ this !! N.to_nat (shard_index label) = Some sh →
  mutex sh = Readers 0 →
  find label this =
    Some (default NOT_FOUND (map sh !! label), this,
          [LockShared (shard_index label); MapAccess (shard_index label);
           MapAccess (shard_index label); UnlockShared (shard_index label)]).
Proof.
  intros Hsh Hfree. step_into. rewrite Hsh; simpl. rewrite Hfree; simpl.
  step_shard Hsh.
  assert (mkLookup (<[N.to_nat (shard_index label) :=
                       mkShard (map sh) (Readers 0)]> (shards_ this)) = this)
    as Hsame.
  { destruct this as [l]; cbn in *. f_equal. apply list_insert_id.
    rewrite Hsh. destruct sh; cbn in *. by subst. }
  destruct (map sh !! label) as [second|]; cbn.
  - rewrite decide_True by done. cbn. step_shard Hsh. by rewrite Hsame.
  - rewrite decide_False by (intros Hne; by apply Hne). cbn.
    step_shard Hsh. by rewrite Hsame.
Qed.

Lemma erase_eq this label sh :
  shards_ this !! N.to_nat (shard_index label) = Some sh →
  mutex sh = Readers 0 →
  erase label this =
    Some (bool_decide (is_Some (map sh !! label)),
          mkLookup (<[N.to_nat (shard_index label) :=
                       mkShard (delete label (map sh)) (Readers 0)]>
                      (shards_ this)),
          [Lock (shard_index label); MapAccess (shard_index label);
           Unlock (shard_index label)]).
Proof.
  intros Hsh Hfree. step_into. rewrite Hsh; simpl. rewrite Hfree; simpl.
  step_shard Hsh.
  destruct (map sh !! label) as [second|] eqn:Hl; cbn.
  - by step_shard Hsh.
  - step_shard Hsh. by rewrite delete_id.
Qed.

(** *** What a write of one shard's mapping does to the object *)

Lemma entry_shard this label sh :
  shards_ this !! N.to_nat (shard_index label) = Some sh →
  entry this label = map sh !! label.
Proof. intros Hsh. unfold entry. by rewrite Hsh. Qed.

Lemma entry_write this label sh m' l :
  shards_ this !! N.to_nat (shard_index label) = Some sh →
  (∀ l', l' ≠ label → m' !! l' = map sh !! l') →
  entry (mkLookup (<[N.to_nat (shard_index label) :=
                      mkShard m' (Readers 0)]> (shards_ this))) l
  = if decide (l = label) then m' !! label else entry this l.
Proof.
  intros Hsh Hother. unfold entry; simpl. case_decide as Hl.
  - subst l. by rewrite list_lookup_insert_eq by (by eapply lookup_lt_Some).
  - destruct (decide (N.to_nat (shard_index label) = N.to_nat (shard_index l)))
      as [Heq|Hne].
    + rewrite <- Heq, Hsh.
      rewrite list_lookup_insert_eq by (by eapply lookup_lt_Some); simpl.
      by apply Hother.
    + by rewrite list_lookup_insert_ne.
Qed.

Lemma wf_write this label sh m' :
  wf this →
  shards_ this !! N.to_nat (shard_index label) = Some sh →
  (∀ l', l' ≠ label → m' !! l' = map sh !! l') →
  wf (mkLookup (<[N.to_nat (shard_index label) :=
                   mkShard m' (Readers 0)]> (shards_ this))).
Proof.
  intros (Hlen & Hfree & Hrouted) Hsh Hother. split_and!.
  - simpl. by rewrite length_insert.
  - intros i sh'; simpl. rewrite list_lookup_insert.
    case_decide as Hi; [|by apply Hfree].
    destruct Hi as [<- _]. by intros [= <-].
  - intros i sh' l; simpl. rewrite list_lookup_insert.
    case_decide as Hi; [|by apply Hrouted].
    destruct Hi as [<- _]. intros [= <-]; simpl.
    destruct (decide (l = label)) as [->|Hl]; [done|].
    rewrite Hother by done. by apply Hrouted.
Qed.

Lemma wf_new : wf (ShardedLabelLookup_new (labeltype := labeltype)).
Proof.
  unfold ShardedLabelLookup_new. split_and!.
  - cbn [shards_]. by rewrite length_replicate.
  - intros i sh. cbn [shards_]. by intros [-> _]%lookup_replicate.
  - intros i sh l. cbn [shards_]. intros [-> _]%lookup_replicate.
    cbn [map]. rewrite lookup_empty. by intros [? ?].
Qed.

Lemma entry_new label :
  entry (ShardedLabelLookup_new (labeltype := labeltype)) label = None.
Proof.
  unfold entry, ShardedLabelLookup_new. cbn [shards_].
  rewrite lookup_replicate_2; [apply lookup_empty|].
  pose proof (shard_index_lt label). lia.
Qed.

Lemma insert_spec this label id :
  wf this →
  ∃ this' tr,
    insert label id this = Some (tt, this', tr)
    ∧ wf this'
    ∧ ∀ l, entry this' l = if decide (l = label) then Some id else entry this l.
Proof.
  intros Hwf. destruct (wf_shard this label Hwf) as (sh & Hsh & Hfree).
  rewrite (insert_eq _ _ _ _ Hsh Hfree). eexists _, _. split; [done|].
  assert (∀ l', l' ≠ label → <[label := id]> (map sh) !! l' = map sh !! l')
    as Hother by (intros; by apply lookup_insert_ne).
  split; [by eapply wf_write|].
  intros l. rewrite (entry_write _ _ _ _ _ Hsh Hother).
  by rewrite lookup_insert_eq.
Qed.

Lemma find_spec this label :
  wf this →
  ∃ tr, find label this = Some (default NOT_FOUND (entry this label), this, tr).
Proof.
  intros Hwf. destruct (wf_shard this label Hwf) as (sh & Hsh & Hfree).
  rewrite (find_eq _ _ _ Hsh Hfree), (entry_shard _ _ _ Hsh). by eexists.
Qed.

Lemma erase_spec this label :
  wf this →
  ∃ this' tr,
    erase label this = Some (bool_decide (is_Some (entry this label)), this', tr)
    ∧ wf this'
    ∧ (∀ l, entry this' l = if decide (l = label) then None else entry this l)
    ∧ (entry this label = None → this' = this).
Proof.
  intros Hwf. destruct (wf_shard this label Hwf) as (sh & Hsh & Hfree).
  rewrite (erase_eq _ _ _ Hsh Hfree), (entry_shard _ _ _ Hsh).
  eexists _, _. split; [done|].
  assert (∀ l', l' ≠ label → delete label (map sh) !! l' = map sh !! l')
    as Hother by (intros; by apply lookup_delete_ne).
  split; [by eapply wf_write|]. split.
  - intros l. rewrite (entry_write _ _ _ _ _ Hsh Hother).
    by rewrite lookup_delete_eq.
  - intros Hnone. rewrite delete_id by done.
    destruct this as [l]; cbn in *. f_equal. apply list_insert_id.
    rewrite Hsh. destruct sh; cbn in *. by subst.
Qed.

Lemma perform_spec this c :
  wf this →
  ∃ this' tr,
    perform c this = Some (answer this c, this', tr)
    ∧ wf this'
    ∧ ∀ l, entry this' l = entry_after this c l.
Proof.
  intros Hwf. destruct c as [label id|label|label]; simpl; unfold bind, ret.
  - destruct (insert_spec this label id Hwf) as (this' & tr & -> & ? & ?).
    by eexists _, _.
  - destruct (find_spec this label Hwf) as (tr & ->). by eexists _, _.
  - destruct (erase_spec this label Hwf) as (this' & tr & -> & ? & ? & _).
    by eexists _, _.
Qed.

(** *** Sequences of calls *)

Lemma returns_bind {S A B} (m : M S A) (f : A → M S B) (s s' : S) a tr b :
  m s = Some (a, s', tr) → returns (f a) s' b → returns (bind m f) s b.
Proof.
  intros Hm (s'' & tr' & Hf). unfold returns, bind. rewrite Hm, Hf.
  by eexists _, _.
Qed.

Lemma returns_ret {S A} (s : S) (a : A) : returns (ret a) s a.
Proof. by eexists _, _. Qed.

Lemma entry_after_frame this c l :
  ¬ writes l c → entry_after this c l = entry this l.
Proof.
  destruct c as [label id|label|label]; simpl; intros Hw; [|done|];
    by rewrite decide_False by (by intros ->).
Qed.

Lemma entry_after_absent this c l :
  ¬ inserts l c → entry this l = None → entry_after this c l = None.
Proof.
  destruct c as [label id|label|label]; simpl; intros Hw Hnone; [|done|].
  - by rewrite decide_False by (by intros ->).
  - by case_decide.
Qed.

Lemma entry_after_live this c (live : gset labeltype) l :
  (∀ l, is_Some (entry this l) ↔ l ∈ live) →
  is_Some (entry_after this c l) ↔ l ∈ live_step live c.
Proof.
  intros Hlive. destruct c as [label id|label|label]; simpl; [|done|].
  - rewrite elem_of_union, elem_of_singleton. case_decide as Hl.
    + split; [by left|eauto].
    + rewrite Hlive. tauto.
  - rewrite elem_of_difference, elem_of_singleton. case_decide as Hl.
    + split; [by intros [? ?]|by intros [_ ?]].
    + rewrite Hlive. tauto.
Qed.

Lemma run_spec cs this :
  wf this →
  ∃ rs this' tr,
    run cs this = Some (rs, this', tr)
    ∧ wf this'
    ∧ (∀ l, Forall (λ c, ¬ writes l c) cs → entry this' l = entry this l)
    ∧ (∀ l, Forall (λ c, ¬ inserts l c) cs →
            entry this l = None → entry this' l = None)
    ∧ (∀ live, (∀ l, is_Some (entry this l) ↔ l ∈ live) →
               ∀ l, is_Some (entry this' l) ↔ l ∈ foldl live_step live cs).
Proof.
  revert this. induction cs as [|c cs IH]; intros this Hwf.
  - by eexists [], this, [].
  - destruct (perform_spec this c Hwf) as (this1 & tr1 & Hc & Hwf1 & Hent).
    destruct (IH this1 Hwf1)
      as (rs & this2 & tr2 & Hrun & Hwf2 & Hframe & Habsent & Hlive).
    exists (answer this c :: rs), this2, (tr1 ++ tr2 ++ []).
    split; [|split; [done|split_and!]].
    + simpl. unfold bind, ret. by rewrite Hc, Hrun.
    + intros l Hall. apply Forall_cons_1 in Hall as [Hw Hws].
      by rewrite Hframe, Hent, entry_after_frame.
    + intros l Hall Hnone. apply Forall_cons_1 in Hall as [Hw Hws].
      apply Habsent; [done|].
      by rewrite Hent, entry_after_absent.
    + intros live Hl l. simpl. apply Hlive. intros l'.
      rewrite Hent. by apply entry_after_live.
Qed.

Lemma reachable_wf this : reachable this → wf this.
Proof.
  intros (cs & rs & tr & Hrun).
  destruct (run_spec cs _ wf_new) as (rs' & this' & tr' & Hrun' & Hwf & _).
  rewrite Hrun in Hrun'. by injection Hrun' as -> -> ->.
Qed.

Lemma reachable_new :
  reachable (ShardedLabelLookup_new (labeltype := labeltype)).
Proof. by exists [], [], []. Qed.

Lemma run_app cs1 cs2 this rs1 this1 tr1 rs2 this2 tr2 :
  run cs1 this = Some (rs1, this1, tr1) →
  run cs2 this1 = Some (rs2, this2, tr2) →
  run (cs1 ++ cs2) this = Some (rs1 ++ rs2, this2, tr1 ++ tr2).
Proof.
  revert this rs1 tr1. induction cs1 as [|c cs1 IH]; intros this rs1 tr1.
  - intros [= <- <- <-]. done.
  - simpl. unfold bind, ret.
    destruct (perform c this) as [[[r s] t]|]; [|done].
    destruct (run cs1 s) as [[[rs s'] t']|] eqn:Hrun; [|done].
    intros [= <- <- <-] Hrun2.
    rewrite (IH _ _ _ Hrun Hrun2). simpl.
    by rewrite !app_nil_r, app_assoc.
Qed.

Lemma reachable_run cs this rs this' tr :
  reachable this → run cs this = Some (rs, this', tr) → reachable this'.
Proof.
  intros (cs0 & rs0 & tr0 & Hrun0) Hrun.
  exists (cs0 ++ cs), (rs0 ++ rs), (tr0 ++ tr). by eapply run_app.
Qed.

Lemma reachable_perform c this r this' tr :
  reachable this → perform c this = Some (r, this', tr) → reachable this'.
Proof.
  intros Hreach Hc. eapply (reachable_run [c]); [done|].
  simpl. unfold bind, ret. by rewrite Hc.
Qed.

(** *** Scanning the shards *)

Lemma elem_of_shard_labels sh l : l ∈ shard_labels sh ↔ is_Some (map sh !! l).
Proof.
  unfold shard_labels. rewrite list_elem_of_fmap. split.
  - intros ([l' v] & -> & Hin). apply elem_of_map_to_list in Hin. by eexists.
  - intros [v Hv]. exists (l, v). split; [done|]. by apply elem_of_map_to_list.
Qed.

Lemma elem_of_all_labels this l :
  wf this → l ∈ all_labels this ↔ is_Some (entry this l).
Proof.
  intros Hwf. unfold all_labels. rewrite list_elem_of_bind. split.
  - intros (sh & Hl%elem_of_shard_labels & (i & Hi)%list_elem_of_lookup).
    destruct Hwf as (_ & _ & Hrouted).
    rewrite (Hrouted i sh l Hi Hl) in Hi. by rewrite (entry_shard _ _ _ Hi).
  - intros Hl. destruct (wf_shard this l Hwf) as (sh & Hsh & _).
    rewrite (entry_shard _ _ _ Hsh) in Hl. exists sh.
    split; [by apply elem_of_shard_labels|].
    apply list_elem_of_lookup. eauto.
Qed.

Lemma NoDup_bind_indexed {A B} (f : A → list B) (l : list A) :
  (∀ i x, l !! i = Some x → NoDup (f x)) →
  (∀ i j x y b, l !! i = Some x → l !! j = Some y →
                b ∈ f x → b ∈ f y → i = j) →
  NoDup (l ≫= f).
Proof.
  induction l as [|x l IH]; intros Hnd Hdisj; csimpl; [constructor|].
  apply list_relations.list.NoDup_app. split_and!.
  - by apply (Hnd 0%nat).
  - intros b Hb (y & Hy & (j & Hj)%list_elem_of_lookup)%list_elem_of_bind.
    by specialize (Hdisj 0%nat (S j) x y b eq_refl Hj Hb Hy).
  - apply IH.
    + intros i y Hi. by apply (Hnd (S i)).
    + intros i j y z b Hi Hj Hy Hz.
      by specialize (Hdisj (S i) (S j) y z b Hi Hj Hy Hz) as [= ->].
Qed.

Lemma NoDup_all_labels this : wf this → NoDup (all_labels this).
Proof.
  intros (_ & _ & Hrouted). apply NoDup_bind_indexed.
  - intros i sh _. apply NoDup_fst_map_to_list.
  - intros i j sh1 sh2 l Hi Hj Hl1%elem_of_shard_labels Hl2%elem_of_shard_labels.
    by rewrite (Hrouted i sh1 l Hi Hl1), (Hrouted j sh2 l Hj Hl2).
Qed.

(** *** The frame of a write *)

Lemma write_differs this label sh m' :
  shards_ this !! N.to_nat (shard_index label) = Some sh →
  mutex sh = Readers 0 →
  (∀ l, l ≠ label → m' !! l = map sh !! l) →
  (size (map sh) ≤ S (size m'))%nat →
  (size m' ≤ S (size (map sh)))%nat →
  differ_at_most_at label this
    (mkLookup (<[N.to_nat (shard_index label) :=
                  mkShard m' (Readers 0)]> (shards_ this))).
Proof.
  intros Hsh Hfree Hother Hle1 Hle2. split_and!.
  - cbn [shards_]. apply length_insert.
  - intros i Hi. cbn [shards_]. by apply list_lookup_insert_ne.
  - exists sh, (mkShard m' (Readers 0)). split_and!; try done.
    cbn [shards_]. apply list_lookup_insert_eq. by eapply lookup_lt_Some.
Qed.
End Steps.

(** ** The lookup *)

Section Claims.
Context {labeltype : Type} `{Countable labeltype} `{!Hash labeltype}.
Implicit Types (this other : ShardedLabelLookup labeltype).
Implicit Types (label : labeltype) (cs : list (call labeltype)).

(** C3: [get_shard_index] is a pure, deterministic function of the
    label. On any object it returns, leaves the object as it is, takes
    no lock and touches no mapping; the index is in
    [[0, NUM_SHARDS)]; and the index is the same on any other object
    (and so on the same object again). *)
Theorem get_shard_index_pure label this other :
  ∃ idx,
    get_shard_index label this = Some (idx, this, [])
    ∧ get_shard_index label other = Some (idx, other, [])
    ∧ (0 ≤ idx < NUM_SHARDS)%N.
Proof.
  exists (shard_index label). split_and!; try done.
  - apply N.le_0_l.
  - apply shard_index_lt.
Qed.

(** C1: after [insert(L, id)], and then any calls that are not an
    [insert] or an [erase] of [L], [find(L)] returns [id]; an
    [insert(L, id2)] at that point makes [find(L)] return [id2], and an
    [erase(L)] makes it return the not-found result. *)
Theorem insert_find_until_rewritten this label id cs :
  reachable this →
  Forall (λ c, ¬ writes label c) cs →
  returns (insert label id;; run cs;; find label) this id
  ∧ (∀ id2,
       returns (insert label id;; run cs;; insert label id2;; find label)
         this id2)
  ∧ returns (insert label id;; run cs;; erase label;; find label)
      this NOT_FOUND.
Proof.
  intros Hwf%reachable_wf Hcs.
  destruct (insert_spec this label id Hwf) as (this1 & tr1 & Hins & Hwf1 & He1).
  destruct (run_spec cs this1 Hwf1) as (rs & this2 & tr2 & Hrun & Hwf2 & Hfr & _).
  assert (entry this2 label = Some id) as He2.
  { rewrite Hfr, He1 by done. by rewrite decide_True. }
  split_and!.
  - eapply returns_bind; [done|]. eapply returns_bind; [done|].
    destruct (find_spec this2 label Hwf2) as (tr & Hfind).
    rewrite He2 in Hfind. by eexists _, _.
  - intros id2. eapply returns_bind; [done|]. eapply returns_bind; [done|].
    destruct (insert_spec this2 label id2 Hwf2)
      as (this3 & tr3 & Hins2 & Hwf3 & He3).
    eapply returns_bind; [done|].
    destruct (find_spec this3 label Hwf3) as (tr & Hfind).
    rewrite He3, decide_True in Hfind by done. by eexists _, _.
  - eapply returns_bind; [done|]. eapply returns_bind; [done|].
    destruct (erase_spec this2 label Hwf2)
      as (this3 & tr3 & Hera & Hwf3 & He3 & _).
    eapply returns_bind; [done|].
    destruct (find_spec this3 label Hwf3) as (tr & Hfind).
    rewrite He3, decide_True in Hfind by done. by eexists _, _.
Qed.

(** C10: the not-found result of [find] is the largest [tableint],
    0xFFFFFFFF, an id that [insert] stores like any other: [find(L)]
    after [insert(L, 0xFFFFFFFF)] and [find(L)] after [erase(L)] return
    the same value. *)
Theorem not_found_is_a_storable_id this label :
  reachable this →
  returns (insert label 4294967295;; find label) this NOT_FOUND
  ∧ returns (erase label;; find label) this NOT_FOUND
  ∧ NOT_FOUND = 4294967295
  ∧ is_tableint 4294967295.
Proof.
  intros Hwf%reachable_wf. split_and!.
  - destruct (insert_spec this label 4294967295 Hwf)
      as (this1 & tr1 & Hins & Hwf1 & He1).
    eapply returns_bind; [done|].
    destruct (find_spec this1 label Hwf1) as (tr & Hfind).
    rewrite He1, decide_True in Hfind by done. by eexists _, _.
  - destruct (erase_spec this label Hwf) as (this1 & tr1 & Hera & Hwf1 & He1 & _).
    eapply returns_bind; [done|].
    destruct (find_spec this1 label Hwf1) as (tr & Hfind).
    rewrite He1, decide_True in Hfind by done. by eexists _, _.
  - done.
  - unfold is_tableint, UINT_MODULUS. lia.
Qed.

(** C4: on any object a program can hold, [insert(label, id)] returns,
    whatever the label and the id. The mapping of the label's shard
    afterwards is the one before with [label] bound to [id]: an
    existing entry is overwritten and the size stays, otherwise an
    entry is added and the size grows by one. *)
Theorem insert_never_fails this label id :
  reachable this →
  ∃ this' tr sh sh',
    insert label id this = Some (tt, this', tr)
    ∧ reachable this'
    ∧ shards_ this !! N.to_nat (shard_index label) = Some sh
    ∧ shards_ this' !! N.to_nat (shard_index label) = Some sh'
    ∧ map sh' = <[label := id]> (map sh)
    ∧ map sh' !! label = Some id
    ∧ (is_Some (map sh !! label) → size (map sh') = size (map sh))
    ∧ (map sh !! label = None → size (map sh') = S (size (map sh))).
Proof.
  intros Hreach. pose proof (reachable_wf _ Hreach) as Hwf.
  destruct (wf_shard this label Hwf) as (sh & Hsh & Hfree).
  pose proof (insert_eq _ _ id _ Hsh Hfree) as Hins.
  eexists _, _, sh, _. split; [exact Hins|]. split_and!.
  - eapply (reachable_perform (Insert label id)); [exact Hreach|].
    simpl. unfold bind, ret. by rewrite Hins.
  - done.
  - cbn [shards_]. apply list_lookup_insert_eq. by eapply lookup_lt_Some.
  - done.
  - cbn [map]. apply lookup_insert_eq.
  - cbn [map]. apply map_size_insert_Some.
  - cbn [map]. apply map_size_insert_None.
Qed.

(** C5: [erase(label)] returns true exactly when the label had an
    entry, and the label has none afterwards; on a label without an
    entry it returns false and the object is the same as before; and a
    second [erase(label)], with no [insert] of the label in between,
    returns false, so that on a label with an entry the two calls
    return true, then false. *)
Theorem erase_reports_removal this label cs :
  reachable this →
  Forall (λ c, ¬ inserts label c) cs →
  (∃ this' tr,
     erase label this
     = Some (bool_decide (is_Some (entry this label)), this', tr)
     ∧ entry this' label = None
     ∧ (entry this label = None → this' = this))
  ∧ returns (do b1 <- erase label; run cs;; do b2 <- erase label; ret (b1, b2))
      this (bool_decide (is_Some (entry this label)), false)
  ∧ (is_Some (entry this label) →
     returns (do b1 <- erase label; run cs;; do b2 <- erase label; ret (b1, b2))
       this (true, false)).
Proof.
  intros Hwf%reachable_wf Hcs.
  destruct (erase_spec this label Hwf)
    as (this1 & tr1 & Hera & Hwf1 & He1 & Hsame).
  assert (returns
            (do b1 <- erase label; run cs;; do b2 <- erase label; ret (b1, b2))
            this (bool_decide (is_Some (entry this label)), false)) as Htwice.
  { eapply returns_bind; [done|].
    destruct (run_spec cs this1 Hwf1)
      as (rs & this2 & tr2 & Hrun & Hwf2 & _ & Habsent & _).
    eapply returns_bind; [done|].
    destruct (erase_spec this2 label Hwf2) as (this3 & tr3 & Hera2 & _).
    rewrite Habsent in Hera2; [|done|by rewrite He1, decide_True].
    rewrite bool_decide_false in Hera2 by (by intros [? ?]).
    eapply returns_bind; [done|]. apply returns_ret. }
  split_and!.
  - exists this1, tr1. split_and!; [done| |done].
    by rewrite He1, decide_True.
  - done.
  - intros Hsome. by rewrite bool_decide_true in Htwice.
Qed.

(** C6: [insert(label, id)] and [erase(label)] change at most the entry
    of [label] in the mapping of the shard that [label] is routed to:
    the other shards are as before, so are the entries of the other
    labels, and the size of that mapping changes by at most one. *)
Theorem writes_change_one_entry this label :
  reachable this →
  (∀ id, ∃ this' tr,
      insert label id this = Some (tt, this', tr)
      ∧ differ_at_most_at label this this')
  ∧ (∃ b this' tr,
      erase label this = Some (b, this', tr)
      ∧ differ_at_most_at label this this').
Proof.
  intros Hwf%reachable_wf.
  destruct (wf_shard this label Hwf) as (sh & Hsh & Hfree). split.
  - intros id. eexists _, _. split; [by apply (insert_eq _ _ id _ Hsh Hfree)|].
    apply (write_differs _ _ sh); [done|done| | |].
    + intros l Hl. by apply lookup_insert_ne.
    + rewrite map_size_insert. destruct (map sh !! label); simpl; lia.
    + rewrite map_size_insert. destruct (map sh !! label); simpl; lia.
  - eexists _, _, _. split; [by apply (erase_eq _ _ _ Hsh Hfree)|].
    apply (write_differs _ _ sh); [done|done| | |].
    + intros l Hl. by apply lookup_delete_ne.
    + rewrite map_size_delete. destruct (map sh !! label); simpl; lia.
    + rewrite map_size_delete. destruct (map sh !! label); simpl; lia.
Qed.

(** C2: after any sequence of calls on a fresh structure, a label found
    in the mapping of a shard is found in the shard selected by
    [get_shard_index] and in no other; the scan of all the shards meets
    no label twice; and the labels it meets are exactly those inserted
    and not erased since. *)
Theorem labels_partitioned cs :
  ∃ rs this tr,
    run cs ShardedLabelLookup_new = Some (rs, this, tr)
    ∧ (∀ i sh label,
         shards_ this !! i = Some sh → is_Some (map sh !! label) →
         get_shard_index label this = Some (N.of_nat i, this, []))
    ∧ NoDup (all_labels this)
    ∧ (∀ label, label ∈ all_labels this ↔ label ∈ live_labels cs)
    ∧ all_labels this ≡ₚ elements (live_labels cs).
Proof.
  destruct (run_spec cs _ wf_new)
    as (rs & this & tr & Hrun & Hwf & _ & _ & Hlive).
  exists rs, this, tr. split; [done|].
  assert (∀ label, label ∈ all_labels this ↔ label ∈ live_labels cs) as Hin.
  { intros label. rewrite (elem_of_all_labels this label Hwf).
    apply Hlive. intros l. rewrite entry_new, elem_of_empty.
    split; [by intros [? ?]|done]. }
  split_and!.
  - intros i sh label Hi Hl. destruct Hwf as (_ & _ & Hrouted).
    rewrite (Hrouted i sh label Hi Hl). unfold get_shard_index, ret.
    by rewrite N2Nat.id.
  - by apply NoDup_all_labels.
  - done.
  - apply NoDup_Permutation; [by apply NoDup_all_labels|apply NoDup_elements|].
    intros label. by rewrite Hin, elem_of_elements.
Qed.

(** C7, as the code has it: the constructor takes no parameter; the
    shard count is the constant [NUM_SHARDS], 128, for the fresh
    structure and after any sequence of calls on it. *)
Theorem shard_count_is_NUM_SHARDS cs :
  NUM_SHARDS = 128%N
  ∧ length (shards_ (ShardedLabelLookup_new (labeltype := labeltype))) = 128%nat
  ∧ ∃ rs this tr,
      run cs ShardedLabelLookup_new = Some (rs, this, tr)
      ∧ length (shards_ this) = 128%nat.
Proof.
  split; [done|]. split; [apply wf_new|].
  destruct (run_spec cs _ wf_new) as (rs & this & tr & Hrun & Hwf & _).
  exists rs, this, tr. split; [done|]. apply Hwf.
Qed.

(** C8: a call of [insert], [find] or [erase] on an object a program
    can hold takes the lock of one shard, the one selected by
    [get_shard_index] for its label; every lock and mapping it touches
    is that shard's; it never holds more than one lock; and it has
    released the lock when it returns. *)
Theorem one_shard_lock_per_call this c :
  reachable this →
  ∃ r this' tr,
    perform c this = Some (r, this', tr)
    ∧ get_shard_index (call_label c) this
      = Some (shard_index (call_label c), this, [])
    ∧ locks_taken tr = [shard_index (call_label c)]
    ∧ Forall (λ e, event_shard e = shard_index (call_label c)) tr
    ∧ max_held [] tr = 1%nat
    ∧ held_at_end tr = [].
Proof.
  intros Hwf%reachable_wf.
  destruct (wf_shard this (call_label c) Hwf) as (sh & Hsh & Hfree).
  destruct c as [label id|label|label]; cbn [call_label perform] in *;
    unfold bind, ret.
  - rewrite (insert_eq _ _ id _ Hsh Hfree). eexists _, _, _.
    split; [done|]. cbn. rewrite decide_True by done.
    split_and!; try done. by repeat constructor.
  - rewrite (find_eq _ _ _ Hsh Hfree). eexists _, _, _.
    split; [done|]. cbn. rewrite decide_True by done.
    split_and!; try done. by repeat constructor.
  - rewrite (erase_eq _ _ _ Hsh Hfree). eexists _, _, _.
    split; [done|]. cbn. rewrite decide_True by done.
    split_and!; try done. by repeat constructor.
Qed.
End Claims.

(** ** The timer around a call *)

Section Timers.
Context {labeltype : Type} `{Countable labeltype} `{!Hash labeltype}.
Implicit Types (w : Process labeltype) (t : Timer).

Lemma Timer_ctor_eq tag w :
  Timer_ctor tag w =
    Some (mkTimer tag (to_uint64 (clock w (ticks w))),
          mkProcess (lookup w) (profiler w) (clock w) (S (ticks w))
            (this_thread w),
          []).
Proof. done. Qed.

Lemma Timer_dtor_spec t w :
  events_mutex_ (profiler w) = false →
  ∃ w', Timer_dtor t w = Some (tt, w', [])
        ∧ lookup w' = lookup w
        ∧ events_mutex_ (profiler w') = false.
Proof.
  intros Hfree.
  unfold Timer_dtor, now, get_id, emplace_back, lock_guard,
    lock_guard_release, get_profiler, set_profiler, bind, ret, stuck.
  cbn. rewrite Hfree. cbn.
  destruct (thread_start_times_ (profiler w) !! this_thread w); cbn;
    by eexists.
Qed.

Lemma perform_in_spec c w :
  events_mutex_ (profiler w) = false →
  observe (perform_in c w) = perform c.2 (lookup w)
  ∧ ∀ r w' tr, perform_in c w = Some (r, w', tr) →
               events_mutex_ (profiler w') = false.
Proof.
  intros Hfree. destruct c as [[tag|] c]; unfold perform_in; cbn [fst snd].
  - unfold timed, bind. rewrite Timer_ctor_eq.
    unfold on_lookup. cbn [lookup].
    destruct (perform c (lookup w)) as [[[r this'] tr]|]; [|done].
    cbn [lookup profiler clock ticks this_thread].
    destruct (Timer_dtor_spec
                (mkTimer tag (to_uint64 (clock w (ticks w))))
                (mkProcess this' (profiler w) (clock w) (S (ticks w))
                   (this_thread w)) Hfree)
      as (w' & -> & Hsame & Hfree').
    cbn. rewrite Hsame, !app_nil_r. split; [done|].
    by intros ? ? ? [= <- <- <-].
  - unfold on_lookup.
    destruct (perform c (lookup w)) as [[[r this'] tr]|]; [|done].
    split; [done|]. by intros ? ? ? [= <- <- <-].
Qed.

(** C9: whichever calls of a sequence run in the scope of a [Timer],
    and whatever the clock reads and the profiler holds, the results,
    the lookup afterwards and the accesses to the shards are those of
    the same calls with no timer at all; the profiler's mutex is free
    when the sequence starts. *)
Theorem timer_is_transparent
    (tcs : list (option string * call labeltype)) w :
  events_mutex_ (profiler w) = false →
  observe (run_in tcs w) = run (tcs.*2) (lookup w).
Proof.
  revert w. induction tcs as [|c tcs IH]; intros w Hfree; [done|].
  destruct (perform_in_spec c w Hfree) as [Hobs Hfree'].
  cbn [run_in run fmap list_fmap]. unfold bind. rewrite <- Hobs.
  destruct (perform_in c w) as [[[r w1] tr1]|]; [|done].
  cbn [observe]. rewrite <- (IH w1) by (by eapply Hfree').
  by destruct (run_in tcs w1) as [[[rs w2] tr2]|].
Qed.
End Timers.

(** ** The properties at work *)

Example scenario_user_42 :
  results (run scenario ShardedLabelLookup_new)
  = Some [Done; Found 7; Done; Found 9; Erased true; Found NOT_FOUND;
          Erased false].
Proof. vm_compute. reflexivity. Qed.

Example two_entries_scan : all_labels two_entries = [129%N; 1%N].
Proof. vm_compute. reflexivity. Qed.

Lemma reachable_two_entries : reachable two_entries.
Proof.
  exists [Insert 1%N 10; Insert 129%N 20], [Done; Done],
    [Lock 1%N; MapAccess 1%N; Unlock 1%N; Lock 1%N; MapAccess 1%N; Unlock 1%N].
  vm_compute. reflexivity.
Defined.

Example timed_calls_results :
  results (run_in sample_calls sample_process)
  = Some [Done; Found 7; Found 10; Erased true; Erased false].
Proof. vm_compute. reflexivity. Qed.

Lemma insert_find_until_rewritten_witness :
  returns (insert 1%N 7;; run others_of_1;; find 1%N) two_entries 7
  ∧ (∀ id2,
       returns (insert 1%N 7;; run others_of_1;; insert 1%N id2;; find 1%N)
         two_entries id2)
  ∧ returns (insert 1%N 7;; run others_of_1;; erase 1%N;; find 1%N)
      two_entries NOT_FOUND.
Proof.
  apply (insert_find_until_rewritten two_entries 1%N 7 others_of_1).
  - exact reachable_two_entries.
  - repeat constructor; simpl; try tauto; intros Heq; discriminate Heq.
Defined.

Lemma not_found_is_a_storable_id_witness :
  returns (insert 1%N 4294967295;; find 1%N) two_entries NOT_FOUND
  ∧ returns (erase 1%N;; find 1%N) two_entries NOT_FOUND
  ∧ NOT_FOUND = 4294967295
  ∧ is_tableint 4294967295.
Proof.
  apply (not_found_is_a_storable_id two_entries 1%N).
  exact reachable_two_entries.
Defined.

Lemma insert_never_fails_witness :
  ∃ this' tr, insert 257%N 3 two_entries = Some (tt, this', tr).
Proof.
  destruct (insert_never_fails two_entries 257%N 3 reachable_two_entries)
    as (this' & tr & _ & _ & Hins & _).
  exists this', tr. exact Hins.
Defined.

Lemma erase_reports_removal_witness :
  returns (do b1 <- erase 1%N; run no_insert_of_1;;
           do b2 <- erase 1%N; ret (b1, b2))
    two_entries (true, false).
Proof.
  apply (erase_reports_removal two_entries 1%N no_insert_of_1).
  - exact reachable_two_entries.
  - repeat constructor; simpl; try tauto; intros Heq; discriminate Heq.
  - vm_compute. eauto.
Defined.

Lemma writes_change_one_entry_witness :
  ∃ b this' tr,
    erase 129%N two_entries = Some (b, this', tr)
    ∧ differ_at_most_at 129%N two_entries this'.
Proof.
  apply (writes_change_one_entry two_entries 129%N).
  exact reachable_two_entries.
Defined.

Lemma one_shard_lock_per_call_witness :
  ∃ r this' tr,
    perform (Find 129%N) two_entries = Some (r, this', tr)
    ∧ get_shard_index 129%N two_entries = Some (shard_index 129%N, two_entries, [])
    ∧ locks_taken tr = [shard_index 129%N]
    ∧ Forall (λ e, event_shard e = shard_index 129%N) tr
    ∧ max_held [] tr = 1%nat
    ∧ held_at_end tr = [].
Proof.
  apply (one_shard_lock_per_call two_entries (Find 129%N)).
  exact reachable_two_entries.
Defined.

Lemma timer_is_transparent_witness :
  observe (run_in sample_calls sample_process)
  = run (sample_calls.*2) (lookup sample_process).
Proof.
  apply (timer_is_transparent sample_calls sample_process).
  reflexivity.
Defined.

(** C7 with a shard count given at construction, 64 say: no structure
    that a program can build has 64 shards, as the constructor takes no
    shard count and builds [NUM_SHARDS] of them. *)
Lemma shard_count_not_configurable :
  ¬ ∃ this : ShardedLabelLookup N,
      reachable this ∧ length (shards_ this) = 64%nat.
Proof.
  intros (this & (Hlen & _)%reachable_wf & H64).
  rewrite Hlen in H64. discriminate H64.
Qed.

(** * Further properties *)

(** ** The lookup between calls *)

Section Content.
Context {labeltype : Type} `{Countable labeltype} `{!Hash labeltype}.
Implicit Types (this : ShardedLabelLookup labeltype) (label : labeltype).
Implicit Types (sh : Shard labeltype) (cs : list (call labeltype)).

(** Between calls, a structure is what it maps the labels to. *)
Lemma wf_ext this1 this2 :
  wf this1 → wf this2 →
  (∀ l, entry this1 l = entry this2 l) → this1 = this2.
Proof.
  intros (Hlen1 & Hfree1 & Hrouted1) (Hlen2 & Hfree2 & Hrouted2) Hentry.
  destruct this1 as [l1], this2 as [l2]; cbn [shards_] in *. f_equal.
  apply list_eq. intros i.
  destruct (l1 !! i) as [sh1|] eqn:H1, (l2 !! i) as [sh2|] eqn:H2.
  - f_equal. pose proof (Hfree1 _ _ H1) as Hm1. pose proof (Hfree2 _ _ H2) as Hm2.
    destruct sh1 as [m1 x1], sh2 as [m2 x2]; cbn [mutex] in *. subst. f_equal.
    apply map_eq. intros l.
    destruct (decide (i = N.to_nat (shard_index l))) as [->|Hne].
    + specialize (Hentry l). unfold entry in Hentry; cbn [shards_] in Hentry.
      by rewrite H1, H2 in Hentry.
    + transitivity (@None Z); [|symmetry]; apply eq_None_not_Some; intros Hl.
      * by apply Hne, (Hrouted1 _ _ _ H1).
      * by apply Hne, (Hrouted2 _ _ _ H2).
  - apply lookup_lt_Some in H1. apply lookup_ge_None in H2. lia.
  - apply lookup_lt_Some in H2. apply lookup_ge_None in H1. lia.
  - done.
Qed.

Lemma entry_after_other this c l :
  l ≠ call_label c → entry_after this c l = entry this l.
Proof.
  destruct c as [label id|label|label]; simpl; intros Hl; [|done|];
    by rewrite decide_False.
Qed.

Lemma answer_same this this' c :
  entry this' (call_label c) = entry this (call_label c) →
  answer this' c = answer this c.
Proof. destruct c; simpl; intros Heq; by rewrite ?Heq. Qed.

(** X1: on a structure where [label] has no entry, [insert(label, id)]
    and then [erase(label)] returns true and gives the structure back as
    it was. *)
Theorem insert_erase_round_trip this label id :
  reachable this →
  entry this label = None →
  ∃ tr, (insert label id;; erase label) this = Some (true, this, tr).
Proof.
  intros Hwf%reachable_wf Hnone.
  destruct (insert_spec this label id Hwf) as (this1 & tr1 & Hins & Hwf1 & He1).
  destruct (erase_spec this1 label Hwf1) as (this2 & tr2 & Hera & Hwf2 & He2 & _).
  rewrite He1, decide_True, bool_decide_true in Hera by eauto.
  assert (this2 = this) as ->.
  { apply wf_ext; [done|done|]. intros l. rewrite He2, He1.
    case_decide; by subst. }
  exists (tr1 ++ tr2). unfold bind. by rewrite Hins, Hera.
Qed.

(** X2: [insert(label, a)] and then [insert(label, b)] leaves the same
    structure as [insert(label, b)] alone: nothing of the first id
    remains. *)
Theorem insert_overwrites this label a b :
  reachable this →
  ∃ this' tr tr',
    (insert label a;; insert label b) this = Some (tt, this', tr)
    ∧ insert label b this = Some (tt, this', tr').
Proof.
  intros Hwf%reachable_wf.
  destruct (insert_spec this label a Hwf) as (this1 & tr1 & Hins1 & Hwf1 & He1).
  destruct (insert_spec this1 label b Hwf1) as (this2 & tr2 & Hins2 & Hwf2 & He2).
  destruct (insert_spec this label b Hwf) as (this3 & tr3 & Hins3 & Hwf3 & He3).
  assert (this2 = this3) as ->.
  { apply wf_ext; [done|done|]. intros l. rewrite He2, He3, He1.
    by case_decide. }
  exists this3, (tr1 ++ tr2), tr3. unfold bind. by rewrite Hins1, Hins2.
Qed.

(** X3: two calls on different labels commute: in either order each
    returns the same result and the structure afterwards is the same. *)
Theorem calls_on_different_labels_commute this c1 c2 :
  reachable this →
  call_label c1 ≠ call_label c2 →
  ∃ r1 r2 this' tr tr',
    (do r1 <- perform c1; do r2 <- perform c2; ret (r1, r2)) this
    = Some ((r1, r2), this', tr)
    ∧ (do r2 <- perform c2; do r1 <- perform c1; ret (r1, r2)) this
      = Some ((r1, r2), this', tr').
Proof.
  intros Hwf%reachable_wf Hne.
  destruct (perform_spec this c1 Hwf) as (this1 & tr1 & Hc1 & Hwf1 & He1).
  destruct (perform_spec this1 c2 Hwf1) as (this12 & tr12 & Hc12 & Hwf12 & He12).
  destruct (perform_spec this c2 Hwf) as (this2 & tr2 & Hc2 & Hwf2 & He2).
  destruct (perform_spec this2 c1 Hwf2) as (this21 & tr21 & Hc21 & Hwf21 & He21).
  rewrite (answer_same this this1 c2) in Hc12
    by (by rewrite He1, entry_after_other).
  rewrite (answer_same this this2 c1) in Hc21
    by (by rewrite He2, entry_after_other).
  assert (this12 = this21) as ->.
  { apply wf_ext; [done|done|]. intros l. rewrite He12, He21.
    destruct c1 as [l1 id1|l1|l1], c2 as [l2 id2|l2|l2]; simpl in *;
      rewrite ?He1, ?He2; simpl; repeat case_decide; congruence. }
  exists (answer this c1), (answer this c2), this21,
    (tr1 ++ tr12 ++ []), (tr2 ++ tr21 ++ []).
  unfold bind, ret. by rewrite Hc1, Hc12, Hc2, Hc21.
Qed.

End Content.

Section History.
Context {labeltype : Type} `{Countable labeltype} `{!Hash labeltype}.
Implicit Types (this : ShardedLabelLookup labeltype) (label : labeltype).
Implicit Types (sh : Shard labeltype) (cs : list (call labeltype)).

(** X4: any number of [find]s, on any labels, return and leave the
    structure exactly as it was, the locks included. *)
Theorem finds_leave_the_structure this cs :
  reachable this →
  Forall is_find cs →
  ∃ rs tr, run cs this = Some (rs, this, tr).
Proof.
  intros Hwf%reachable_wf Hcs.
  induction Hcs as [|c cs Hc Hcs (rs & tr & Hrun)]; [by exists [], []|].
  destruct c as [| label |]; try done.
  destruct (find_spec this label Hwf) as (tr1 & Hfind).
  eexists _, _. simpl. unfold bind, ret. by rewrite Hfind, Hrun.
Qed.

Lemma entry_history cs this rs this' tr l v :
  wf this →
  run cs this = Some (rs, this', tr) →
  entry this' l = Some v →
  entry this l = Some v ∨ Insert l v ∈ cs.
Proof.
  revert this rs tr. induction cs as [|c cs IH]; intros this rs tr Hwf.
  - intros [= <- <- <-]. by left.
  - destruct (perform_spec this c Hwf) as (this1 & tr1 & Hc & Hwf1 & He1).
    simpl. unfold bind, ret. rewrite Hc.
    destruct (run cs this1) as [[[rs1 this2] tr2]|] eqn:Hrun; [|done].
    intros [= <- <- <-] Hv.
    destruct (IH _ _ _ Hwf1 Hrun Hv) as [Hv1|Hin];
      [|right; by apply list_elem_of_further].
    rewrite He1 in Hv1.
    destruct c as [l0 id|l0|l0]; simpl in Hv1; [| by left |].
    + case_decide as Hl; [|by left].
      injection Hv1 as ->. subst l0. right. apply list_elem_of_here.
    + case_decide; [done|by left].
Qed.

(** X5: after any calls on a fresh structure, an id that [find(label)]
    returns, other than the not-found value, was given for that label in
    an [insert] among those calls. *)
Theorem found_id_was_inserted cs rs this tr label v this' tr' :
  run cs ShardedLabelLookup_new = Some (rs, this, tr) →
  find label this = Some (v, this', tr') →
  v ≠ NOT_FOUND →
  Insert label v ∈ cs.
Proof.
  intros Hrun Hfind Hv.
  assert (wf this) as Hwf by (apply reachable_wf; by exists cs, rs, tr).
  destruct (find_spec this label Hwf) as (tr1 & Hfind1).
  rewrite Hfind in Hfind1. injection Hfind1 as -> _ _.
  destruct (entry this label) as [v|] eqn:Hentry; [|done].
  destruct (entry_history _ _ _ _ _ _ _ wf_new Hrun Hentry) as [Hnew|Hin];
    [|done].
  by rewrite entry_new in Hnew.
Qed.

(** X6: after any calls on a fresh structure, a label that none of them
    inserted is not found, and [erase] of it returns false. *)
Theorem never_inserted_is_absent cs label :
  Forall (λ c, ¬ inserts label c) cs →
  returns (run cs;; find label) ShardedLabelLookup_new NOT_FOUND
  ∧ returns (run cs;; erase label) ShardedLabelLookup_new false.
Proof.
  intros Hcs.
  destruct (run_spec cs _ wf_new)
    as (rs & this & tr & Hrun & Hwf & _ & Habsent & _).
  pose proof (Habsent label Hcs (entry_new label)) as Hnone. split.
  - eapply returns_bind; [done|].
    destruct (find_spec this label Hwf) as (tr1 & Hfind).
    rewrite Hnone in Hfind. by eexists _, _.
  - eapply returns_bind; [done|].
    destruct (erase_spec this label Hwf) as (this1 & tr1 & Hera & _).
    rewrite Hnone, bool_decide_false in Hera by (by intros [? ?]).
    by eexists _, _.
Qed.

Lemma length_all_labels this : length (all_labels this) = entry_count this.
Proof.
  unfold all_labels, entry_count.
  induction (shards_ this) as [|sh l IH]; csimpl; [done|].
  rewrite length_app, IH. unfold shard_labels.
  by rewrite length_fmap, length_map_to_list.
Qed.

(** X7: after any calls on a fresh structure, the number of entries over
    all the shards is the number of labels inserted and not erased
    since. *)
Theorem entry_count_is_live_count cs :
  ∃ rs this tr,
    run cs ShardedLabelLookup_new = Some (rs, this, tr)
    ∧ entry_count this = size (live_labels cs).
Proof.
  destruct (run_spec cs _ wf_new)
    as (rs & this & tr & Hrun & Hwf & _ & _ & Hlive).
  exists rs, this, tr. split; [done|].
  rewrite <- length_all_labels.
  apply Permutation_length, NoDup_Permutation;
    [by apply NoDup_all_labels|apply NoDup_elements|].
  intros label. rewrite (elem_of_all_labels this label Hwf), elem_of_elements.
  apply Hlive. intros l. rewrite entry_new, elem_of_empty.
  split; [by intros [? ?]|done].
Qed.
End History.

(** ** A shard whose lock is held *)

Section Held.
Context {labeltype : Type} `{Countable labeltype} `{!Hash labeltype}.
Implicit Types (this held : ShardedLabelLookup labeltype).
Implicit Types (label : labeltype) (sh : Shard labeltype).

Ltac open_call :=
  unfold insert, find, erase, get_shard_index, unique_lock, shared_lock,
    unique_unlock, shared_unlock, map_assign, map_find, map_end, map_erase,
    map_read, store_shard, shard_at, bind, ret, stuck; simpl.

Ltac walk Hsh :=
  repeat first
    [ rewrite Hsh; simpl
    | rewrite list_lookup_insert_eq by (by eapply lookup_lt_Some); simpl
    | rewrite list_insert_insert_eq ].

Lemma perform_stuck_writer held c sh :
  shards_ held !! N.to_nat (shard_index (call_label c)) = Some sh →
  mutex sh = Writer →
  perform c held = None.
Proof.
  intros Hsh Hw. destruct c as [label id|label|label]; simpl in *; open_call;
    rewrite Hsh; simpl; by rewrite Hw.
Qed.

Lemma write_stuck_reader held c sh n :
  shards_ held !! N.to_nat (shard_index (call_label c)) = Some sh →
  mutex sh = Readers (S n) →
  ¬ is_find c →
  perform c held = None.
Proof.
  intros Hsh Hr Hc. destruct c as [label id|label|label]; simpl in *;
    [|done|]; open_call; rewrite Hsh; simpl; by rewrite Hr.
Qed.

Lemma find_eq_shared this label sh n :
  shards_ this !! N.to_nat (shard_index label) = Some sh →
  mutex sh = Readers n →
  find label this =
    Some (default NOT_FOUND (map sh !! label), this,
          [LockShared (shard_index label); MapAccess (shard_index label);
           MapAccess (shard_index label); UnlockShared (shard_index label)]).
Proof.
  intros Hsh Hr. open_call. rewrite Hsh; simpl. rewrite Hr; simpl.
  walk Hsh.
  assert (mkLookup (<[N.to_nat (shard_index label) :=
                       mkShard (map sh) (Readers n)]> (shards_ this)) = this)
    as Hsame.
  { destruct this as [l]; cbn in *. f_equal. apply list_insert_id.
    rewrite Hsh. destruct sh; cbn in *. by subst. }
  destruct (map sh !! label) as [second|]; cbn.
  - rewrite decide_True by done. cbn. walk Hsh. by rewrite Hsame.
  - rewrite decide_False by (intros Hne; by apply Hne). cbn.
    walk Hsh. by rewrite Hsame.
Qed.

Lemma perform_elsewhere this this' c sh :
  shards_ this !! N.to_nat (shard_index (call_label c)) = Some sh →
  shards_ this' !! N.to_nat (shard_index (call_label c)) = Some sh →
  mutex sh = Readers 0 →
  ∃ r this1 this1' tr,
    perform c this = Some (r, this1, tr)
    ∧ perform c this' = Some (r, this1', tr).
Proof.
  intros Hsh Hsh' Hfree. destruct c as [label id|label|label];
    cbn [call_label perform] in *; unfold bind, ret.
  - rewrite (insert_eq this _ id _ Hsh Hfree), (insert_eq this' _ id _ Hsh' Hfree).
    by eexists _, _, _, _.
  - rewrite (find_eq this _ _ Hsh Hfree), (find_eq this' _ _ Hsh' Hfree).
    by eexists _, _, _, _.
  - rewrite (erase_eq this _ _ Hsh Hfree), (erase_eq this' _ _ Hsh' Hfree).
    by eexists _, _, _, _.
Qed.

(** X8: while the lock of shard [i] is held exclusively, a call on a
    label of shard [i] does not return, and a call on a label of another
    shard returns what it returns with no lock held, with the same
    accesses. *)
Theorem writer_blocks_its_shard_only this i held tr c :
  reachable this →
  unique_lock i this = Some (tt, held, tr) →
  (shard_index (call_label c) = i → perform c held = None)
  ∧ (shard_index (call_label c) ≠ i →
     ∃ r this1 held1 tr1,
       perform c this = Some (r, this1, tr1)
       ∧ perform c held = Some (r, held1, tr1)).
Proof.
  intros Hwf%reachable_wf Hlock.
  revert Hlock. unfold unique_lock, shard_at, store_shard, bind, stuck.
  destruct (shards_ this !! N.to_nat i) as [shi|] eqn:Hshi; [|done].
  destruct (mutex shi) as [[|n]|]; try done. intros [= <- <-]. split.
  - intros <-. apply (perform_stuck_writer _ c (mkShard (map shi) Writer));
      [|done].
    cbn [shards_]. apply list_lookup_insert_eq. by eapply lookup_lt_Some.
  - intros Hne. destruct (wf_shard this (call_label c) Hwf) as (sh & Hsh & Hfree).
    eapply perform_elsewhere; [done| |done]. cbn [shards_].
    rewrite list_lookup_insert_ne; [done|]. intros Heq. apply Hne.
    by apply N2Nat.inj.
Qed.

(** X9: while a reader holds the lock of shard [i], [find] on a label of
    shard [i] returns what it returns with no lock held and leaves the
    reader's lock as it is, and [insert] and [erase] on a label of shard
    [i] do not return. *)
Theorem reader_admits_find_only this label held tr :
  reachable this →
  shared_lock (shard_index label) this = Some (tt, held, tr) →
  (∃ v tr1, find label this = Some (v, this, tr1)
            ∧ find label held = Some (v, held, tr1))
  ∧ (∀ id, insert label id held = None)
  ∧ erase label held = None.
Proof.
  intros Hwf%reachable_wf Hlock.
  destruct (wf_shard this label Hwf) as (sh & Hsh & Hfree).
  revert Hlock. unfold shared_lock, shard_at, store_shard, bind, stuck.
  rewrite Hsh, Hfree. intros [= <- <-].
  assert (shards_ (mkLookup (<[N.to_nat (shard_index label) :=
                               mkShard (map sh) (Readers 1)]> (shards_ this)))
          !! N.to_nat (shard_index label) = Some (mkShard (map sh) (Readers 1)))
    as Hheld.
  { cbn [shards_]. apply list_lookup_insert_eq. by eapply lookup_lt_Some. }
  split_and!.
  - eexists _, _. split; [by apply (find_eq _ _ _ Hsh Hfree)|].
    by rewrite (find_eq_shared _ _ _ 1 Hheld).
  - intros id.
    pose proof (write_stuck_reader _ (Insert label id) _ 0 Hheld eq_refl) as Hins.
    simpl in Hins. unfold bind, ret in Hins.
    destruct (insert label id _) as [[[[] s] t]|]; [|done].
    by specialize (Hins (λ x, x)).
  - pose proof (write_stuck_reader _ (Erase label) _ 0 Hheld eq_refl) as Hera.
    simpl in Hera. unfold bind, ret in Hera.
    destruct (erase label _) as [[[b s] t]|]; [|done].
    by specialize (Hera (λ x, x)).
Qed.
End Held.

(** ** What the timer records *)

Section Records.
Context {labeltype : Type} `{Countable labeltype} `{!Hash labeltype}.
Implicit Types (w : Process labeltype) (t : Timer).

Ltac open_timer :=
  unfold timed, Timer_ctor, Timer_dtor, on_lookup, now, get_id, emplace_back,
    lock_guard, lock_guard_release, get_profiler, set_profiler, local_events,
    bind, ret, stuck.

(** A body that returns, in the scope of a timer. *)
Lemma timed_spec {A} tg (m : M (ShardedLabelLookup labeltype) A) w a this' tr :
  events_mutex_ (profiler w) = false →
  m (lookup w) = Some (a, this', tr) →
  ∃ w',
    timed tg (on_lookup m) w = Some (a, w', tr)
    ∧ lookup w' = this'
    ∧ clock w' = clock w
    ∧ ticks w' = S (S (ticks w))
    ∧ this_thread w' = this_thread w
    ∧ events_mutex_ (profiler w') = false
    ∧ events_ (profiler w') = events_ (profiler w)
    ∧ thread_local_events_ (profiler w')
      = <[this_thread w :=
            local_events w
            ++ [mkEvent tg (this_thread w)
                  (to_uint64 (to_uint64 (clock w (S (ticks w)))
                              - to_uint64 (clock w (ticks w))))]]>
          (thread_local_events_ (profiler w))
    ∧ thread_start_times_ (profiler w')
      = <[this_thread w :=
            default (to_uint64 (clock w (ticks w)))
              (thread_start_times_ (profiler w) !! this_thread w)]>
          (thread_start_times_ (profiler w))
    ∧ thread_end_times_ (profiler w')
      = <[this_thread w := to_uint64 (clock w (S (ticks w)))]>
          (thread_end_times_ (profiler w)).
Proof.
  intros Hfree Hm. destruct w as [lk [mx evs st en tl] clk tk th].
  cbn in Hfree, Hm. subst mx. open_timer. cbn. rewrite Hm. cbn.
  destruct (st !! th) as [s0|] eqn:Hst; cbn; rewrite app_nil_r;
    eexists; (split; [reflexivity|]); cbn; split_and!; try done.
  by rewrite insert_id.
Qed.

(** X10: a call that returns, in the scope of a timer, adds one event
    at the end of the calling thread's unflushed events, with the
    timer's tag, the thread's id and the difference of the two clock
    readings in [uint64_t] arithmetic; the flushed events and the other
    threads' events are as before. *)
Theorem timer_records_one_event {A} tg
    (m : M (ShardedLabelLookup labeltype) A) w a this' tr :
  events_mutex_ (profiler w) = false →
  m (lookup w) = Some (a, this', tr) →
  ∃ w',
    timed tg (on_lookup m) w = Some (a, w', tr)
    ∧ local_events w'
      = local_events w
        ++ [mkEvent tg (this_thread w)
              (to_uint64 (to_uint64 (clock w (S (ticks w)))
                          - to_uint64 (clock w (ticks w))))]
    ∧ events_ (profiler w') = events_ (profiler w)
    ∧ ∀ th, th ≠ this_thread w →
            thread_local_events_ (profiler w') !! th
            = thread_local_events_ (profiler w) !! th.
Proof.
  intros Hfree Hm.
  destruct (timed_spec tg m w a this' tr Hfree Hm)
    as (w' & Hrun & _ & _ & _ & Hth & _ & Hev & Hloc & _).
  exists w'. split_and!; [done| |done|].
  - unfold local_events at 1. by rewrite Hloc, Hth, lookup_insert_eq.
  - intros th Hne. by rewrite Hloc, lookup_insert_ne.
Qed.

(** X11: after a timer's scope the thread's start time is the one
    already recorded for it, if any, and the start of this timer
    otherwise; its end time is the end of this timer; the times of the
    other threads are as before. *)
Theorem timer_keeps_first_start {A} tg
    (m : M (ShardedLabelLookup labeltype) A) w a this' tr :
  events_mutex_ (profiler w) = false →
  m (lookup w) = Some (a, this', tr) →
  ∃ w',
    timed tg (on_lookup m) w = Some (a, w', tr)
    ∧ thread_start_times_ (profiler w') !! this_thread w
      = Some (default (to_uint64 (clock w (ticks w)))
                (thread_start_times_ (profiler w) !! this_thread w))
    ∧ thread_end_times_ (profiler w') !! this_thread w
      = Some (to_uint64 (clock w (S (ticks w))))
    ∧ ∀ th, th ≠ this_thread w →
            thread_start_times_ (profiler w') !! th
            = thread_start_times_ (profiler w) !! th
            ∧ thread_end_times_ (profiler w') !! th
              = thread_end_times_ (profiler w) !! th.
Proof.
  intros Hfree Hm.
  destruct (timed_spec tg m w a this' tr Hfree Hm)
    as (w' & Hrun & _ & _ & _ & _ & _ & _ & _ & Hst & Hen).
  exists w'. rewrite Hst, Hen. split_and!; [done| | |].
  - apply lookup_insert_eq.
  - apply lookup_insert_eq.
  - intros th Hne. by rewrite !lookup_insert_ne.
Qed.

Lemma uint64_difference s e :
  is_uint64 s → is_uint64 e →
  to_uint64 (to_uint64 e - to_uint64 s)
  = if decide (s ≤ e) then e - s else 2 ^ 64 - (s - e).
Proof.
  unfold is_uint64, UINT64_MAX, to_uint64, UINT64_MODULUS. intros Hs He.
  rewrite (Z.mod_small e), (Z.mod_small s) by lia. case_decide.
  - apply Z.mod_small. lia.
  - rewrite <- (Z.mod_add (e - s) 1) by lia. rewrite Z.mod_small by lia. lia.
Qed.

(** X12: with clock readings that fit in a [uint64_t], the duration of
    the event a timer records is the end reading minus the start reading
    when the clock did not go back, and [2^64] less the step back when
    it did. *)
Theorem timer_duration {A} tg
    (m : M (ShardedLabelLookup labeltype) A) w a this' tr :
  events_mutex_ (profiler w) = false →
  m (lookup w) = Some (a, this', tr) →
  is_uint64 (clock w (ticks w)) →
  is_uint64 (clock w (S (ticks w))) →
  ∃ w' ev,
    timed tg (on_lookup m) w = Some (a, w', tr)
    ∧ local_events w' = local_events w ++ [ev]
    ∧ duration_us ev
      = if decide (clock w (ticks w) ≤ clock w (S (ticks w)))
        then clock w (S (ticks w)) - clock w (ticks w)
        else 2 ^ 64 - (clock w (ticks w) - clock w (S (ticks w))).
Proof.
  intros Hfree Hm Hs He.
  destruct (timed_spec tg m w a this' tr Hfree Hm)
    as (w' & Hrun & _ & _ & _ & Hth & _ & _ & Hloc & _).
  eexists w', _. split; [done|]. split.
  - unfold local_events at 1. by rewrite Hloc, Hth, lookup_insert_eq.
  - cbn [duration_us]. by apply uint64_difference.
Qed.
End Records.

(** ** The figures of [export_to_csv] and [report] *)

Lemma push_time_lookup m e tg t :
  times_of (push_time m e) tg t
  = if decide (tag e = tg ∧ tid e = t)
    then Some (default [] (times_of m tg t) ++ [duration_us e])
    else times_of m tg t.
Proof.
  unfold times_of, push_time. cbn.
  destruct (decide (tag e = tg)) as [<-|Htag].
  - rewrite lookup_insert_eq. cbn.
    destruct (decide (tid e = t)) as [<-|Htid].
    + rewrite lookup_insert_eq, decide_True by done.
      by destruct (m !! tag e).
    + rewrite lookup_insert_ne by done.
      rewrite decide_False by (by intros [_ ?]).
      destruct (m !! tag e); [done|]. cbn. apply lookup_empty.
  - rewrite lookup_insert_ne by done.
    by rewrite decide_False by (by intros [? _]).
Qed.

Lemma durations_snoc events e tg t :
  durations (events ++ [e]) tg t
  = durations events tg t
    ++ (if decide (tag e = tg ∧ tid e = t) then [duration_us e] else []).
Proof.
  unfold durations. rewrite list_basics.list.filter_app, fmap_app. f_equal.
  rewrite filter_cons, filter_nil. by case_decide.
Qed.

Lemma times_of_thread_tag_times events tg t :
  times_of (thread_tag_times events) tg t
  = match durations events tg t with
    | [] => None
    | d :: ds => Some (d :: ds)
    end.
Proof.
  induction events as [|e events IH] using rev_ind; [done|].
  unfold thread_tag_times in *. rewrite foldl_snoc, push_time_lookup, IH.
  rewrite durations_snoc. case_decide.
  - by destruct (durations events tg t).
  - by rewrite app_nil_r.
Qed.

Lemma durations_nonempty events tg t :
  durations events tg t ≠ [] ↔ ∃ e, e ∈ events ∧ tag e = tg ∧ tid e = t.
Proof.
  unfold durations. split.
  - intros Hne.
    destruct (filter (λ e, tag e = tg ∧ tid e = t) events) as [|e l] eqn:Hf;
      [done|].
    assert (e ∈ filter (λ e, tag e = tg ∧ tid e = t) events) as Hin
      by (rewrite Hf; left).
    apply list_elem_of_filter in Hin as [[? ?] ?]. by exists e.
  - intros (e & He & Htag & Htid) Hnil.
    assert (e ∈ filter (λ e, tag e = tg ∧ tid e = t) events) as Hin
      by (by apply list_elem_of_filter).
    apply fmap_nil_inv in Hnil. rewrite Hnil in Hin. by inv Hin.
Qed.

(** X18: the table that [export_to_csv] and [report] build from the
    events has a row for a tag and a thread exactly when some event has
    them, and the row holds the durations of those events in the order
    they were recorded; so no row is empty. *)
Theorem thread_tag_times_groups events tg t :
  (is_Some (times_of (thread_tag_times events) tg t)
   ↔ ∃ e, e ∈ events ∧ tag e = tg ∧ tid e = t)
  ∧ ∀ times,
      times_of (thread_tag_times events) tg t = Some times →
      times = durations events tg t ∧ times ≠ [].
Proof.
  rewrite times_of_thread_tag_times, <- durations_nonempty.
  destruct (durations events tg t) as [|d ds]; split.
  - split; [by intros [? ?]|done].
  - done.
  - split; [done|eauto].
  - by intros times [= <-].
Qed.

Lemma tally_total s times :
  to_uint64 (total s) = total s →
  total (foldl tally_step s times) = to_uint64 (total s + sum_times times).
Proof.
  revert s. induction times as [|t times IH]; intros s Hs; cbn.
  - by rewrite Z.add_0_r.
  - rewrite IH; cbn.
    + unfold to_uint64. rewrite Zplus_mod_idemp_l. f_equal.
      unfold sum_times. lia.
    + unfold to_uint64. apply Z.mod_mod. done.
Qed.

Lemma tally_min s times :
  let m := min_time (foldl tally_step s times) in
  m ≤ min_time s ∧ Forall (λ t, m ≤ t) times ∧ (m = min_time s ∨ m ∈ times).
Proof.
  revert s. induction times as [|t times IH]; intros s; cbn.
  - split_and!; [lia|constructor|by left].
  - destruct (IH (tally_step s t)) as (Hle & Hall & Hin). cbn in Hle, Hin.
    split_and!.
    + case_decide; lia.
    + constructor; [case_decide; lia|done].
    + destruct Hin as [Heq|Hin]; [|right; by apply list_elem_of_further].
      rewrite Heq. case_decide; [right; apply list_elem_of_here|by left].
Qed.

Lemma tally_max s times :
  let m := max_time (foldl tally_step s times) in
  max_time s ≤ m ∧ Forall (λ t, t ≤ m) times ∧ (m = max_time s ∨ m ∈ times).
Proof.
  revert s. induction times as [|t times IH]; intros s; cbn.
  - split_and!; [lia|constructor|by left].
  - destruct (IH (tally_step s t)) as (Hle & Hall & Hin). cbn in Hle, Hin.
    split_and!.
    + case_decide; lia.
    + constructor; [case_decide; lia|done].
    + destruct Hin as [Heq|Hin]; [|right; by apply list_elem_of_further].
      rewrite Heq. case_decide; [right; apply list_elem_of_here|by left].
Qed.

(** X19: for the durations of a row, which are [uint64_t] values and at
    least one, the minimum and the maximum that the tally finds are
    durations of the row and bound all of them, and the total is their
    sum modulo [2^64], hence their sum when it fits. *)
Theorem tally_of_a_row times :
  Forall is_uint64 times →
  times ≠ [] →
  min_time (tally_times times) ∈ times
  ∧ max_time (tally_times times) ∈ times
  ∧ Forall (λ t, min_time (tally_times times) ≤ t ≤ max_time (tally_times times))
      times
  ∧ total (tally_times times) = to_uint64 (sum_times times)
  ∧ (sum_times times ≤ UINT64_MAX →
     total (tally_times times) = sum_times times).
Proof.
  intros Hrange Hne. unfold tally_times.
  destruct (tally_min (mkTally 0 UINT64_MAX 0) times) as (Hmin1 & Hmin2 & Hmin3).
  destruct (tally_max (mkTally 0 UINT64_MAX 0) times) as (Hmax1 & Hmax2 & Hmax3).
  cbn [total min_time max_time] in *.
  set (s := foldl tally_step (mkTally 0 UINT64_MAX 0) times) in *.
  destruct times as [|t0 times]; [done|].
  assert (is_uint64 t0) as Ht0 by (by apply Forall_cons_1 in Hrange as [? _]).
  assert (min_time s ≤ t0) by (by apply Forall_cons_1 in Hmin2 as [? _]).
  assert (t0 ≤ max_time s) by (by apply Forall_cons_1 in Hmax2 as [? _]).
  unfold is_uint64 in Ht0.
  assert (total s = to_uint64 (sum_times (t0 :: times))) as Htotal.
  { unfold s. by rewrite tally_total. }
  split_and!.
  - destruct Hmin3 as [Heq|Hin]; [|done].
    assert (min_time s = t0) as -> by lia. apply list_elem_of_here.
  - destruct Hmax3 as [Heq|Hin]; [|done].
    assert (max_time s = t0) as -> by lia. apply list_elem_of_here.
  - apply list_relations.list.Forall_forall. intros t Ht.
    rewrite list_relations.list.Forall_forall in Hmin2, Hmax2. split; auto.
  - done.
  - intros Hfits. rewrite Htotal. unfold to_uint64, UINT64_MODULUS.
    apply Z.mod_small. unfold UINT64_MAX in Hfits.
    assert (0 ≤ sum_times (t0 :: times)); [|lia].
    clear -Hrange. induction Hrange as [|t l Ht _ IH]; cbn; [done|].
    unfold sum_times in IH. unfold is_uint64 in Ht. lia.
Qed.

Lemma add_totals_dom (thread_map : gmap N (list Z)) (acc : gmap N Z) :
  dom (map_fold add_total acc thread_map) = dom acc ∪ dom thread_map.
Proof.
  apply (map_fold_weak_ind
           (λ r m, dom r = dom acc ∪ dom (m : gmap N (list Z)))).
  - rewrite dom_empty_L. by rewrite (right_id_L ∅ (∪)).
  - intros t times m r _ IH. unfold add_total.
    rewrite !dom_insert_L, IH.
    rewrite (assoc_L (∪)), (comm_L (∪) {[t]} (dom acc)).
    by rewrite <- (assoc_L (∪)).
Qed.

Lemma thread_totals_dom (m : gmap string (gmap N (list Z))) t :
  t ∈ dom (thread_totals m) ↔ ∃ tg, is_Some (times_of m tg t).
Proof.
  unfold thread_totals.
  apply (map_fold_weak_ind
           (λ r (m : gmap string (gmap N (list Z))),
              t ∈ dom r ↔ ∃ tg, is_Some (times_of m tg t))).
  - rewrite dom_empty_L. split; [by intros ?%not_elem_of_empty|].
    intros (tg & ts & Hts). unfold times_of in Hts.
    by rewrite lookup_empty in Hts.
  - intros tg0 thread_map m0 r Hfresh IH.
    rewrite add_totals_dom, elem_of_union, IH, elem_of_dom. split.
    + intros [(tg & Hts)|Ht].
      * exists tg. unfold times_of in *.
        rewrite lookup_insert_ne; [done|]. intros <-.
        rewrite Hfresh in Hts. by destruct Hts.
      * exists tg0. unfold times_of. by rewrite lookup_insert_eq.
    + intros (tg & Hts). unfold times_of in Hts.
      destruct (decide (tg0 = tg)) as [<-|Hne].
      * rewrite lookup_insert_eq in Hts. by right.
      * rewrite lookup_insert_ne in Hts by done. left. by exists tg.
Qed.

Lemma thread_totals_size events :
  size (thread_totals (thread_tag_times events))
  = size (list_to_set (tid <$> events) : gset N).
Proof.
  rewrite <- size_dom. f_equal. apply set_eq. intros t.
  rewrite thread_totals_dom, elem_of_list_to_set, list_elem_of_fmap. split.
  - intros (tg & ts & Hts). rewrite times_of_thread_tag_times in Hts.
    destruct (durations events tg t) as [|d ds] eqn:Hd; [done|].
    assert (d ∈ durations events tg t) as Hin by (rewrite Hd; left).
    unfold durations in Hin.
    apply list_elem_of_fmap in Hin as (e & _ & He).
    apply list_elem_of_filter in He as [[_ Ht] He]. by exists e.
  - intros (e & -> & He). exists (tag e).
    rewrite times_of_thread_tag_times.
    assert (duration_us e ∈ durations events (tag e) (tid e)) as Hin.
    { unfold durations. apply list_elem_of_fmap. exists e. split; [done|].
      by apply list_elem_of_filter. }
    destruct (durations events (tag e) (tid e)); [by inv Hin|eauto].
Qed.

Lemma rows_of_lookup m tg t :
  (thread_map ← rows_of m !! tg; thread_map !! t)
  = row_of <$> times_of m tg t.
Proof.
  unfold rows_of, times_of. rewrite lookup_fmap.
  destruct (m !! tg) as [thread_map|]; [|done]. cbn. by rewrite lookup_fmap.
Qed.

(** ** Timed sequences, flushing and clearing *)

Section Flushing.
Context {labeltype : Type} `{Countable labeltype} `{!Hash labeltype}.
Implicit Types (w : Process labeltype).

Ltac open_static :=
  unfold flush_thread_local, clear, export_to_csv, report, timed, Timer_ctor,
    Timer_dtor, on_lookup, now, get_id, lock_guard, lock_guard_release,
    get_profiler, set_profiler, local_events, bind, ret, stuck.

Lemma timed_none {A} tg (m : M (ShardedLabelLookup labeltype) A) w :
  m (lookup w) = None → timed tg (on_lookup m) w = None.
Proof. intros Hm. open_static. cbn. by rewrite Hm. Qed.

Lemma perform_in_records c w r w1 tr :
  events_mutex_ (profiler w) = false →
  perform_in c w = Some (r, w1, tr) →
  events_mutex_ (profiler w1) = false
  ∧ this_thread w1 = this_thread w
  ∧ events_ (profiler w1) = events_ (profiler w)
  ∧ ∃ new,
      local_events w1 = local_events w ++ new
      ∧ tag <$> new = timer_tags [c]
      ∧ Forall (λ e, tid e = this_thread w) new.
Proof.
  intros Hfree. destruct c as [[tg|] c]; unfold perform_in; cbn [fst snd].
  - destruct (perform c (lookup w)) as [[[r0 this'] tr0]|] eqn:Hc;
      [|by rewrite timed_none].
    destruct (timed_spec tg _ w _ _ _ Hfree Hc)
      as (w' & -> & _ & _ & _ & Hth & Hmx & Hev & Hloc & _).
    intros [= <- <- <-]. split_and!; try done.
    eexists [_]. split_and!.
    + unfold local_events at 1. by rewrite Hloc, Hth, lookup_insert_eq.
    + done.
    + by repeat constructor.
  - unfold on_lookup.
    destruct (perform c (lookup w)) as [[[r0 this'] tr0]|]; [|done].
    intros [= <- <- <-]. split_and!; try done.
    exists []. by rewrite app_nil_r.
Qed.

(** X13: a sequence of calls that returns, some of them in the scope
    of a timer, adds to the calling thread's unflushed events one event
    for each timed call, in the order of the calls, with the tag of its
    timer and the thread's id; the flushed events are as before. *)
Theorem timed_calls_record_their_tags
    (tcs : list (option string * call labeltype)) w rs w' tr :
  events_mutex_ (profiler w) = false →
  run_in tcs w = Some (rs, w', tr) →
  ∃ new,
    local_events w' = local_events w ++ new
    ∧ tag <$> new = timer_tags tcs
    ∧ Forall (λ e, tid e = this_thread w) new
    ∧ events_ (profiler w') = events_ (profiler w).
Proof.
  revert w rs tr. induction tcs as [|c tcs IH]; intros w rs tr Hfree.
  - intros [= <- <- <-]. exists []. by rewrite app_nil_r.
  - cbn [run_in]. unfold bind, ret.
    destruct (perform_in c w) as [[[r w1] tr1]|] eqn:Hc; [|done].
    destruct (run_in tcs w1) as [[[rs1 w2] tr2]|] eqn:Hrun; [|done].
    intros [= <- <- <-].
    destruct (perform_in_records c w r w1 tr1 Hfree Hc)
      as (Hfree1 & Hth1 & Hev1 & new1 & Hloc1 & Htag1 & Htid1).
    destruct (IH w1 rs1 tr2 Hfree1 Hrun) as (new2 & Hloc2 & Htag2 & Htid2 & Hev2).
    exists (new1 ++ new2). split_and!.
    + by rewrite Hloc2, Hloc1, app_assoc.
    + rewrite fmap_app, Htag1, Htag2. unfold timer_tags.
      by rewrite <- omap_app.
    + apply Forall_app. split; [done|]. by rewrite <- Hth1.
    + by rewrite Hev2.
Qed.

Lemma flush_spec w :
  events_mutex_ (profiler w) = false →
  ∃ w',
    flush_thread_local w = Some (tt, w', [])
    ∧ events_ (profiler w') = events_ (profiler w) ++ local_events w
    ∧ local_events w' = []
    ∧ events_mutex_ (profiler w') = false
    ∧ lookup w' = lookup w
    ∧ this_thread w' = this_thread w
    ∧ thread_start_times_ (profiler w') = thread_start_times_ (profiler w)
    ∧ thread_end_times_ (profiler w') = thread_end_times_ (profiler w)
    ∧ ∀ th, th ≠ this_thread w →
            thread_local_events_ (profiler w') !! th
            = thread_local_events_ (profiler w) !! th.
Proof.
  intros Hfree. destruct w as [lk [mx evs st en tl] clk tk th].
  cbn in Hfree. subst mx. open_static. cbn.
  destruct (default [] (tl !! th)) as [|e l] eqn:Hloc; cbn.
  - eexists. split; [reflexivity|]. cbn. rewrite Hloc, app_nil_r.
    by split_and!.
  - eexists. split; [reflexivity|]. cbn. rewrite Hloc, lookup_insert_eq.
    split_and!; try done. intros th' Hne. by rewrite lookup_insert_ne.
Qed.

Lemma flush_nothing w :
  local_events w = [] → flush_thread_local w = Some (tt, w, []).
Proof.
  destruct w as [lk [mx evs st en tl] clk tk th]. open_static. cbn.
  by intros ->.
Qed.

(** X14: with the profiler's mutex free, [flush_thread_local] appends
    the calling thread's unflushed events to [events_], in their order,
    and leaves the thread with none; the other threads' unflushed
    events and the recorded times are as before, and the mutex is free
    again. *)
Theorem flush_moves_the_events w :
  events_mutex_ (profiler w) = false →
  ∃ w',
    flush_thread_local w = Some (tt, w', [])
    ∧ events_ (profiler w') = events_ (profiler w) ++ local_events w
    ∧ local_events w' = []
    ∧ events_mutex_ (profiler w') = false
    ∧ thread_start_times_ (profiler w') = thread_start_times_ (profiler w)
    ∧ thread_end_times_ (profiler w') = thread_end_times_ (profiler w)
    ∧ ∀ th, th ≠ this_thread w →
            thread_local_events_ (profiler w') !! th
            = thread_local_events_ (profiler w) !! th.
Proof.
  intros Hfree.
  destruct (flush_spec w Hfree)
    as (w' & Hrun & Hev & Hloc & Hmx & _ & _ & Hst & Hen & Hoth).
  by exists w'.
Qed.

(** X15: [flush_thread_local] takes the profiler's mutex only when the
    calling thread has unflushed events: with none it returns and
    changes nothing even while the mutex is held, and with some it does
    not return while the mutex is held. *)
Theorem flush_waits_only_with_events w :
  events_mutex_ (profiler w) = true →
  (local_events w = [] → flush_thread_local w = Some (tt, w, []))
  ∧ (local_events w ≠ [] → flush_thread_local w = None).
Proof.
  intros Hheld. split; [apply flush_nothing|].
  destruct w as [lk [mx evs st en tl] clk tk th]. cbn in Hheld. subst mx.
  open_static. cbn. by destruct (default [] (tl !! th)).
Qed.

(** X16: a second [flush_thread_local] right after a first changes
    nothing: the two in a row leave what one leaves. *)
Theorem flush_twice_is_flush_once w :
  events_mutex_ (profiler w) = false →
  (flush_thread_local;; flush_thread_local) w = flush_thread_local w.
Proof.
  intros Hfree.
  destruct (flush_spec w Hfree) as (w' & Hrun & _ & Hloc & _).
  unfold bind. by rewrite Hrun, (flush_nothing w' Hloc).
Qed.

(** X17: with the profiler's mutex free, [clear] empties [events_], the
    start and end times of all the threads and the unflushed events of
    the calling thread; the unflushed events of the other threads stay,
    and so does the lookup. *)
Theorem clear_spares_other_threads w :
  events_mutex_ (profiler w) = false →
  ∃ w',
    clear w = Some (tt, w', [])
    ∧ events_ (profiler w') = []
    ∧ thread_start_times_ (profiler w') = ∅
    ∧ thread_end_times_ (profiler w') = ∅
    ∧ local_events w' = []
    ∧ events_mutex_ (profiler w') = false
    ∧ lookup w' = lookup w
    ∧ ∀ th, th ≠ this_thread w →
            thread_local_events_ (profiler w') !! th
            = thread_local_events_ (profiler w) !! th.
Proof.
  intros Hfree. destruct w as [lk [mx evs st en tl] clk tk th].
  cbn in Hfree. subst mx. open_static. cbn.
  eexists. split; [reflexivity|]. cbn. rewrite lookup_insert_eq.
  split_and!; try done. intros th' Hne. by rewrite lookup_insert_ne.
Qed.

Lemma export_spec is_open w :
  events_mutex_ (profiler w) = false →
  ∃ w',
    export_to_csv is_open w
    = Some (if is_open
            then Some (rows_of (thread_tag_times
                                  (events_ (profiler w) ++ local_events w)))
            else None,
            w', [])
    ∧ events_ (profiler w') = events_ (profiler w) ++ local_events w
    ∧ local_events w' = []
    ∧ events_mutex_ (profiler w') = false.
Proof.
  intros Hfree.
  destruct (flush_spec w Hfree) as (w' & Hrun & Hev & Hloc & Hmx & _).
  unfold export_to_csv, bind. rewrite Hrun. rewrite <- Hev. clear Hrun Hev.
  destruct w' as [lk' [mx' evs' st' en' tl'] clk' tk' th'].
  cbn in Hmx. subst mx'. open_static. cbn.
  destruct is_open; cbn; eexists; (split; [reflexivity|]); by cbn.
Qed.

(** X20: with the profiler's mutex free and a file that opens,
    [export_to_csv] writes a row for a tag and a thread exactly when an
    event, flushed or of the calling thread and not flushed yet, has
    them; the row's number of calls is the number of those events and
    its total, minimum and maximum are the tally of their durations. *)
Theorem export_to_csv_rows w :
  events_mutex_ (profiler w) = false →
  ∃ rows w',
    export_to_csv true w = Some (Some rows, w', [])
    ∧ ∀ tg t,
        (thread_map ← rows !! tg; thread_map !! t)
        = match durations (events_ (profiler w) ++ local_events w) tg t with
          | [] => None
          | d :: ds => Some (length (d :: ds), tally_times (d :: ds))
          end.
Proof.
  intros Hfree. destruct (export_spec true w Hfree) as (w' & Hrun & _).
  eexists _, w'. split; [exact Hrun|]. intros tg t.
  rewrite rows_of_lookup, times_of_thread_tag_times.
  by destruct (durations _ tg t).
Qed.

(** X21: when the file does not open, [export_to_csv] writes nothing
    but has flushed the calling thread's events into [events_] all the
    same, and has released the mutex. *)
Theorem export_to_csv_unopened w :
  events_mutex_ (profiler w) = false →
  ∃ w',
    export_to_csv false w = Some (None, w', [])
    ∧ events_ (profiler w') = events_ (profiler w) ++ local_events w
    ∧ local_events w' = []
    ∧ events_mutex_ (profiler w') = false.
Proof. intros Hfree. by apply (export_spec false w). Qed.

(** X22: with the profiler's mutex free, [report] prints the same rows
    as [export_to_csv] writes, over the flushed events and the calling
    thread's unflushed ones, and as number of threads the number of
    distinct thread ids among those events; it leaves the calling
    thread's events flushed and the mutex free. *)
Theorem report_figures w :
  events_mutex_ (profiler w) = false →
  ∃ rows n w',
    report w = Some ((rows, n), w', [])
    ∧ (∀ tg t,
         (thread_map ← rows !! tg; thread_map !! t)
         = match durations (events_ (profiler w) ++ local_events w) tg t with
           | [] => None
           | d :: ds => Some (length (d :: ds), tally_times (d :: ds))
           end)
    ∧ n = size (list_to_set
                  (tid <$> events_ (profiler w) ++ local_events w) : gset N)
    ∧ events_ (profiler w') = events_ (profiler w) ++ local_events w
    ∧ local_events w' = []
    ∧ events_mutex_ (profiler w') = false.
Proof.
  intros Hfree.
  destruct (flush_spec w Hfree) as (w' & Hrun & Hev & Hloc & Hmx & _).
  unfold report, bind. rewrite Hrun. rewrite <- Hev. clear Hrun Hev.
  destruct w' as [lk' [mx' evs' st' en' tl'] clk' tk' th'].
  cbn in Hmx. subst mx'. open_static. cbn.
  eexists _, _, _. split; [reflexivity|]. cbn. split_and!; try done.
  - intros tg t. rewrite rows_of_lookup, times_of_thread_tag_times.
    unfold durations. by destruct (duration_us <$> _).
  - apply thread_totals_size.
Qed.
End Flushing.

(** ** The further properties at work *)

Lemma two_entries_run :
  run [Insert 1%N 10; Insert 129%N 20] ShardedLabelLookup_new
  = Some ([Done; Done], two_entries,
          [Lock 1%N; MapAccess 1%N; Unlock 1%N;
           Lock 1%N; MapAccess 1%N; Unlock 1%N]).
Proof. vm_compute. reflexivity. Defined.

Lemma find_1_two_entries :
  perform (Find 1%N) two_entries
  = Some (Found 10, two_entries,
          [LockShared 1%N; MapAccess 1%N; MapAccess 1%N; UnlockShared 1%N]).
Proof. vm_compute. reflexivity. Defined.

Lemma insert_erase_round_trip_witness :
  ∃ tr, (insert 5%N 7;; erase 5%N) two_entries = Some (true, two_entries, tr).
Proof.
  apply (insert_erase_round_trip two_entries 5%N 7).
  - exact reachable_two_entries.
  - vm_compute. reflexivity.
Defined.

Lemma insert_overwrites_witness :
  ∃ this' tr tr',
    (insert 1%N 7;; insert 1%N 9) two_entries = Some (tt, this', tr)
    ∧ insert 1%N 9 two_entries = Some (tt, this', tr').
Proof.
  apply (insert_overwrites two_entries 1%N 7 9).
  exact reachable_two_entries.
Defined.

Lemma calls_on_different_labels_commute_witness :
  ∃ r1 r2 this' tr tr',
    (do r1 <- perform (Insert 1%N 7); do r2 <- perform (Erase 129%N);
     ret (r1, r2)) two_entries
    = Some ((r1, r2), this', tr)
    ∧ (do r2 <- perform (Erase 129%N); do r1 <- perform (Insert 1%N 7);
       ret (r1, r2)) two_entries
      = Some ((r1, r2), this', tr').
Proof.
  apply (calls_on_different_labels_commute two_entries
           (Insert 1%N 7) (Erase 129%N)).
  - exact reachable_two_entries.
  - simpl. intros Heq. discriminate Heq.
Defined.

Lemma finds_leave_the_structure_witness :
  ∃ rs tr, run [Find 1%N; Find 5%N; Find 129%N] two_entries
           = Some (rs, two_entries, tr).
Proof.
  apply (finds_leave_the_structure two_entries).
  - exact reachable_two_entries.
  - repeat constructor.
Defined.

Lemma found_id_was_inserted_witness :
  Insert 129%N 20 ∈ [Insert 1%N 10; Insert 129%N 20].
Proof.
  apply (found_id_was_inserted _ _ _ _ 129%N 20 two_entries
           [LockShared 1%N; MapAccess 1%N; MapAccess 1%N; UnlockShared 1%N]
           two_entries_run).
  - vm_compute. reflexivity.
  - vm_compute. intros Heq. discriminate Heq.
Defined.

Lemma never_inserted_is_absent_witness :
  returns (run [Insert 1%N 10; Erase 5%N; Find 5%N];; find 5%N)
    ShardedLabelLookup_new NOT_FOUND
  ∧ returns (run [Insert 1%N 10; Erase 5%N; Find 5%N];; erase 5%N)
      ShardedLabelLookup_new false.
Proof.
  apply (never_inserted_is_absent [Insert 1%N 10; Erase 5%N; Find 5%N] 5%N).
  repeat constructor; simpl; try tauto; intros Heq; discriminate Heq.
Defined.

Lemma writer_blocks_its_shard_only_witness :
  perform (Find 129%N) writer_on_shard_1 = None.
Proof.
  apply (writer_blocks_its_shard_only two_entries 1%N writer_on_shard_1
           [Lock 1%N] (Find 129%N)).
  - exact reachable_two_entries.
  - vm_compute. reflexivity.
  - vm_compute. reflexivity.
Defined.

Lemma reader_admits_find_only_witness :
  (∃ v tr1, find 129%N two_entries = Some (v, two_entries, tr1)
            ∧ find 129%N reader_on_shard_1 = Some (v, reader_on_shard_1, tr1))
  ∧ (∀ id, insert 129%N id reader_on_shard_1 = None)
  ∧ erase 129%N reader_on_shard_1 = None.
Proof.
  apply (reader_admits_find_only two_entries 129%N reader_on_shard_1
           [LockShared 1%N]).
  - exact reachable_two_entries.
  - vm_compute. reflexivity.
Defined.

Lemma timer_records_one_event_witness :
  ∃ w',
    timed "find" (on_lookup (perform (Find 1%N))) busy_process
    = Some (Found 10, w',
            [LockShared 1%N; MapAccess 1%N; MapAccess 1%N; UnlockShared 1%N])
    ∧ local_events w'
      = [mkEvent "insert" 1 12; mkEvent "find" 1 4; mkEvent "find" 1 7].
Proof.
  destruct (timer_records_one_event "find" (perform (Find 1%N)) busy_process
              _ _ _ eq_refl find_1_two_entries)
    as (w' & Hrun & Hloc & _).
  exists w'. split; [exact Hrun|]. rewrite Hloc. vm_compute. reflexivity.
Defined.

Lemma timer_keeps_first_start_witness :
  ∃ w',
    timed "find" (on_lookup (perform (Find 1%N))) sample_process_after
    = Some (Found 10, w',
            [LockShared 1%N; MapAccess 1%N; MapAccess 1%N; UnlockShared 1%N])
    ∧ thread_start_times_ (profiler w') !! 1%N = Some 1000
    ∧ thread_end_times_ (profiler w') !! 1%N = Some 1035.
Proof.
  destruct (timer_keeps_first_start "find" (perform (Find 1%N))
              sample_process_after _ _ _ eq_refl find_1_two_entries)
    as (w' & Hrun & Hst & Hen & _).
  exists w'. split; [exact Hrun|]. split; [exact Hst|exact Hen].
Defined.

Lemma timer_duration_witness :
  ∃ w' ev,
    timed "find" (on_lookup (perform (Find 1%N))) busy_process
    = Some (Found 10, w',
            [LockShared 1%N; MapAccess 1%N; MapAccess 1%N; UnlockShared 1%N])
    ∧ local_events w' = local_events busy_process ++ [ev]
    ∧ duration_us ev = 7.
Proof.
  apply (timer_duration "find" (perform (Find 1%N)) busy_process
           _ _ _ eq_refl find_1_two_entries).
  - unfold is_uint64, UINT64_MAX. cbn. lia.
  - unfold is_uint64, UINT64_MAX. cbn. lia.
Defined.

Lemma timed_calls_record_their_tags_witness :
  ∃ new,
    local_events sample_process_after = local_events sample_process ++ new
    ∧ tag <$> new = timer_tags sample_finds
    ∧ Forall (λ e, tid e = this_thread sample_process) new
    ∧ events_ (profiler sample_process_after)
      = events_ (profiler sample_process).
Proof.
  apply (timed_calls_record_their_tags sample_finds sample_process
           [Found 10; Found NOT_FOUND; Found NOT_FOUND] sample_process_after
           [LockShared 1%N; MapAccess 1%N; MapAccess 1%N; UnlockShared 1%N;
            LockShared 5%N; MapAccess 5%N; MapAccess 5%N; UnlockShared 5%N;
            LockShared 5%N; MapAccess 5%N; MapAccess 5%N; UnlockShared 5%N]).
  - reflexivity.
  - vm_compute. reflexivity.
Defined.

Lemma flush_moves_the_events_witness :
  ∃ w',
    flush_thread_local busy_process = Some (tt, w', [])
    ∧ events_ (profiler w')
      = [mkEvent "find" 2 30; mkEvent "insert" 1 12; mkEvent "find" 1 4].
Proof.
  destruct (flush_moves_the_events busy_process eq_refl)
    as (w' & Hrun & Hev & _).
  exists w'. split; [exact Hrun|]. rewrite Hev. vm_compute. reflexivity.
Defined.

Lemma flush_waits_only_with_events_witness :
  flush_thread_local waiting_process = None.
Proof.
  apply (flush_waits_only_with_events waiting_process eq_refl).
  vm_compute. intros Heq. discriminate Heq.
Defined.

Lemma flush_twice_is_flush_once_witness :
  (flush_thread_local;; flush_thread_local) busy_process
  = flush_thread_local busy_process.
Proof. apply (flush_twice_is_flush_once busy_process). reflexivity. Defined.

Lemma clear_spares_other_threads_witness :
  ∃ w',
    clear busy_process = Some (tt, w', [])
    ∧ events_ (profiler w') = []
    ∧ thread_local_events_ (profiler w') !! 2%N = Some [mkEvent "erase" 2 8].
Proof.
  destruct (clear_spares_other_threads busy_process eq_refl)
    as (w' & Hrun & Hev & _ & _ & _ & _ & _ & Hoth).
  exists w'. split; [exact Hrun|]. split; [exact Hev|].
  rewrite (Hoth 2%N); [reflexivity|]. intros Heq. discriminate Heq.
Defined.

Lemma tally_of_a_row_witness :
  total (tally_times [12; 4; 30]) = 46
  ∧ min_time (tally_times [12; 4; 30]) = 4
  ∧ max_time (tally_times [12; 4; 30]) = 30.
Proof.
  assert (Forall is_uint64 [12; 4; 30]) as Hrange.
  { repeat constructor; unfold is_uint64, UINT64_MAX; lia. }
  assert ([12; 4; 30] ≠ ([] : list Z)) as Hne.
  { intros Heq. discriminate Heq. }
  destruct (tally_of_a_row [12; 4; 30] Hrange Hne) as (_ & _ & _ & _ & Hsum).
  split; [|split; vm_compute; reflexivity].
  rewrite Hsum; [reflexivity|]. unfold UINT64_MAX. cbn. lia.
Defined.

Lemma export_to_csv_rows_witness :
  ∃ rows w',
    export_to_csv true busy_process = Some (Some rows, w', [])
    ∧ (thread_map ← rows !! "find"; thread_map !! 1%N)
      = Some (1%nat, mkTally 4 4 4).
Proof.
  destruct (export_to_csv_rows busy_process eq_refl) as (rows & w' & Hrun & Hrows).
  exists rows, w'. split; [exact Hrun|]. rewrite Hrows.
  vm_compute. reflexivity.
Defined.

Lemma export_to_csv_unopened_witness :
  ∃ w',
    export_to_csv false busy_process = Some (None, w', [])
    ∧ events_ (profiler w')
      = events_ (profiler busy_process) ++ local_events busy_process
    ∧ local_events w' = []
    ∧ events_mutex_ (profiler w') = false.
Proof. apply (export_to_csv_unopened busy_process). reflexivity. Defined.

Lemma report_figures_witness :
  ∃ rows n w', report busy_process = Some ((rows, n), w', []) ∧ n = 2%nat.
Proof.
  destruct (report_figures busy_process eq_refl)
    as (rows & n & w' & Hrun & _ & Hn & _).
  exists rows, n, w'. split; [exact Hrun|]. rewrite Hn.
  vm_compute. reflexivity.
Defined.

(** ** The locks along a sequence of calls *)

Section Locks.
Context {labeltype : Type} `{Countable labeltype} `{!Hash labeltype}.
Implicit Types (this : ShardedLabelLookup labeltype).
Implicit Types (cs : list (call labeltype)).

Lemma max_held_ge held tr : (length held ≤ max_held held tr)%nat.
Proof. destruct tr; simpl; lia. Qed.

Lemma max_held_app held tr1 tr2 :
  max_held held (tr1 ++ tr2)
  = (max_held held tr1 `max` max_held (foldl held_after held tr1) tr2)%nat.
Proof.
  revert held. induction tr1 as [|e tr1 IH]; intros held; simpl.
  - pose proof (max_held_ge held tr2). lia.
  - rewrite IH. lia.
Qed.

Lemma perform_locks this c :
  wf this →
  ∃ r this' tr,
    perform c this = Some (r, this', tr)
    ∧ wf this'
    ∧ max_held [] tr = 1%nat
    ∧ held_at_end tr = []
    ∧ length (locks_taken tr) = 1%nat.
Proof.
  intros Hwf.
  destruct (perform_spec this c Hwf) as (this' & tr & Hc & Hwf' & _).
  exists (answer this c), this', tr. split; [done|]. split; [done|].
  destruct (wf_shard this (call_label c) Hwf) as (sh & Hsh & Hfree).
  revert Hc. destruct c as [label id|label|label];
    cbn [call_label perform] in *; unfold bind, ret;
    [ rewrite (insert_eq _ _ id _ Hsh Hfree)
    | rewrite (find_eq _ _ _ Hsh Hfree)
    | rewrite (erase_eq _ _ _ Hsh Hfree) ];
    cbn [app]; intros Heq; simplify_eq; unfold held_at_end; cbn;
    (destruct (decide (shard_index label = shard_index label));
      [by split_and!|done]).
Qed.

(** X23: along any sequence of calls on a structure a program can
    hold, one shard lock is taken for each call, never more than one
    lock is held at a time, and none is held when the sequence
    returns. *)
Theorem run_holds_one_lock_at_a_time this cs :
  reachable this →
  ∃ rs this' tr,
    run cs this = Some (rs, this', tr)
    ∧ length (locks_taken tr) = length cs
    ∧ (max_held [] tr ≤ 1)%nat
    ∧ held_at_end tr = [].
Proof.
  intros Hwf%reachable_wf. revert this Hwf.
  induction cs as [|c cs IH]; intros this Hwf.
  - exists [], this, []. split_and!; try done. simpl. lia.
  - destruct (perform_locks this c Hwf)
      as (r & this1 & tr1 & Hc & Hwf1 & Hmax1 & Hend1 & Hlen1).
    destruct (IH this1 Hwf1) as (rs & this2 & tr2 & Hrun & Hlen2 & Hmax2 & Hend2).
    exists (r :: rs), this2, (tr1 ++ tr2 ++ []). split_and!.
    + simpl. unfold bind, ret. by rewrite Hc, Hrun.
    + unfold locks_taken in *.
      rewrite app_nil_r, omap_app, length_app, Hlen1, Hlen2. done.
    + rewrite app_nil_r, max_held_app. unfold held_at_end in Hend1.
      rewrite Hend1. lia.
    + unfold held_at_end in *. by rewrite app_nil_r, foldl_app, Hend1.
Qed.
End Locks.

Lemma run_holds_one_lock_at_a_time_witness :
  ∃ rs this' tr,
    run [Insert 5%N 7; Find 1%N; Erase 129%N] two_entries
    = Some (rs, this', tr)
    ∧ length (locks_taken tr) = 3%nat
    ∧ (max_held [] tr ≤ 1)%nat
    ∧ held_at_end tr = [].
Proof.
  apply (run_holds_one_lock_at_a_time two_entries
           [Insert 5%N 7; Find 1%N; Erase 129%N]).
  exact reachable_two_entries.
Defined.
